(** * Mean requests per second over nuclei scan events

    A shallow embedding of [scripts/calculate_mean_reqs_per_sec.py] and the
    properties of its grouping and statistics code.

    Modelling choices, fixed here once:
    - a parsed event is a Python [dict] from field names to JSON values; the
      values covered are the JSON scalars ([null], booleans, integers and
      strings); nested arrays and objects and non-integer numbers are not
      represented;
    - Python exceptions are the [Raise] branch of [result];
    - an aware [datetime] is its UTC instant in microseconds, a [timedelta]
      a number of microseconds; naive (offset-less) timestamps are not
      represented;
    - a Python [float] is read as the exact rational it denotes, so
      [total_seconds()] and [/] are exact;
    - [json.loads] and [datetime.fromisoformat] are library code: they are
      parameters of the development ([json_loads], [fromisoformat]), with
      [None] for [JSONDecodeError] and [ValueError]. *)

From Stdlib Require Import Ascii String QArith Qminmax.
From stdpp Require Import gmap strings list fin_maps pretty.

Local Open Scope string_scope.
Local Open Scope list_scope.
Local Open Scope Z_scope.

(** ** Values and exceptions *)

Inductive value : Type :=
  | VNone
  | VBool (b : bool)
  | VInt (n : Z)
  | VStr (s : string).

#[global] Instance value_eq_dec : EqDecision value.
Proof. solve_decision. Defined.

(** An event is the [dict] that [json.loads] builds from one line. *)
Abbreviation event := (gmap string value).

Inductive exn : Type :=
  | KeyError (k : string)
  | AttributeError
  | TypeError
  | ValueError
  | SystemExit (code : Z).

Inductive result (A : Type) : Type :=
  | Ok (a : A)
  | Raise (e : exn).
Arguments Ok {A} a.
Arguments Raise {A} e.

#[global] Instance result_bind : MBind result := fun A B k r =>
  match r with
  | Ok a => k a
  | Raise e => Raise e
  end.

#[global] Instance result_ret : MRet result := fun A a => Ok a.

(** [d[k]]: subscription raises [KeyError] on an absent key. *)
Definition subscript (d : event) (k : string) : result value :=
  match d !! k with
  | Some v => Ok v
  | None => Raise (KeyError k)
  end.

(** [str(v)], as an f-string formats a replacement field. *)
Definition str (v : value) : string :=
  match v with
  | VNone => "None"
  | VBool true => "True"
  | VBool false => "False"
  | VInt n => pretty n
  | VStr s => s
  end.

(** [acc + v] for an [int] accumulator: [bool] is a subclass of [int], the
    other values raise [TypeError]. *)
Definition int_of_value (v : value) : option Z :=
  match v with
  | VInt n => Some n
  | VBool b => Some (Z.b2z b)
  | _ => None
  end.

Definition add_value (acc : Z) (v : value) : result Z :=
  match int_of_value v with
  | Some n => Ok (acc + n)
  | None => Raise TypeError
  end.

(** ** Strings *)

(** [s.replace(old, new)] for a one-character [old], the only use made of
    it by the script. *)
Fixpoint replace (old : ascii) (new : string) (s : string) : string :=
  match s with
  | EmptyString => EmptyString
  | String c s' =>
      if Ascii.eqb c old then new +:+ replace old new s'
      else String c (replace old new s')
  end.

(** The ASCII characters that [str.strip()] removes. *)
Definition is_space (c : ascii) : bool :=
  let n := N_of_ascii c in
  ((9 <=? n) && (n <=? 13) || (28 <=? n) && (n <=? 32))%N.

Fixpoint lstrip (s : string) : string :=
  match s with
  | EmptyString => EmptyString
  | String c s' => if is_space c then lstrip s' else s
  end.

Fixpoint rstrip (s : string) : string :=
  match s with
  | EmptyString => EmptyString
  | String c s' =>
      match rstrip s' with
      | EmptyString => if is_space c then EmptyString else String c EmptyString
      | r => String c r
      end
  end.

Definition strip (s : string) : string := rstrip (lstrip s).

(** The lines a text file yields when iterated, without their terminators
    ([strip] would remove them).  Both ["\n"] and ["\r"] end a line; the
    empty lines this adds are blank and the reader skips blank lines. *)
Definition is_newline (c : ascii) : bool :=
  let n := N_of_ascii c in ((n =? 10) || (n =? 13))%N.

Fixpoint file_lines (s : string) : list string :=
  match s with
  | EmptyString => [EmptyString]
  | String c s' =>
      if is_newline c then EmptyString :: file_lines s'
      else match file_lines s' with
           | l :: ls => String c l :: ls
           | [] => [String c EmptyString]
           end
  end.

(** ** Lists of instants *)

(** [min(l)] and [max(l)]; both raise [ValueError] on an empty list. *)
Definition py_min (l : list Z) : result Z :=
  match l with
  | [] => Raise ValueError
  | x :: xs => Ok (foldl Z.min x xs)
  end.

Definition py_max (l : list Z) : result Z :=
  match l with
  | [] => Raise ValueError
  | x :: xs => Ok (foldl Z.max x xs)
  end.

(** [timedelta.total_seconds()] of a duration in microseconds. *)
Definition total_seconds (td : Z) : Q := td # 1000000.

(** ** Sample oracles for the two library parsers

    The properties below hold for every [fromisoformat] and [json_loads].
    To run the script's model on concrete logs, these two definitions give
    one reading of each: [iso_instant] accepts the shape
    [YYYY-MM-DDTHH:MM:SS+HH:MM] that [datetime.isoformat()] prints for an
    aware datetime, and [loads_table] answers from a finite table of lines
    and the dicts they denote. *)

Definition digit (c : ascii) : option Z :=
  let n := Z.of_N (N_of_ascii c) in
  if (48 <=? n) && (n <=? 57) then Some (n - 48) else None.

Fixpoint digits (k : nat) (acc : Z) (s : string) : option (Z * string) :=
  match k with
  | O => Some (acc, s)
  | S k' =>
      match s with
      | EmptyString => None
      | String c s' => d ← digit c; digits k' (10 * acc + d) s'
      end
  end.

Definition expect (c : ascii) (s : string) : option string :=
  match s with
  | String c' s' => if Ascii.eqb c c' then Some s' else None
  | EmptyString => None
  end.

Definition is_leap (y : Z) : bool :=
  (y mod 4 =? 0) && (negb (y mod 100 =? 0) || (y mod 400 =? 0)).

Definition days_in_month (y m : Z) : Z :=
  if m =? 2 then (if is_leap y then 29 else 28)
  else if (m =? 4) || (m =? 6) || (m =? 9) || (m =? 11) then 30
  else 31.

(** Days from 1970-01-01 to the given civil date (proleptic Gregorian). *)
Definition days_from_civil (y m d : Z) : Z :=
  let y' := if m <=? 2 then y - 1 else y in
  let era := y' / 400 in
  let yoe := y' - era * 400 in
  let doy := (153 * (if 2 <? m then m - 3 else m + 9) + 2) / 5 + d - 1 in
  let doe := yoe * 365 + yoe / 4 - yoe / 100 + doy in
  era * 146097 + doe - 719468.

Definition sign_of (s : string) : option (Z * string) :=
  match s with
  | String c s' =>
      if Ascii.eqb c "+" then Some (1, s')
      else if Ascii.eqb c "-" then Some (-1, s')
      else None
  | EmptyString => None
  end.

Definition iso_instant (s : string) : option Z :=
  '(y, s) ← digits 4 0 s; s ← expect "-" s;
  '(mo, s) ← digits 2 0 s; s ← expect "-" s;
  '(d, s) ← digits 2 0 s; s ← expect "T" s;
  '(h, s) ← digits 2 0 s; s ← expect ":" s;
  '(mi, s) ← digits 2 0 s; s ← expect ":" s;
  '(sec, s) ← digits 2 0 s;
  '(sg, s) ← sign_of s;
  '(oh, s) ← digits 2 0 s; s ← expect ":" s;
  '(om, s) ← digits 2 0 s;
  match s with
  | EmptyString =>
      if (1 <=? y) && (1 <=? mo) && (mo <=? 12) && (1 <=? d)
         && (d <=? days_in_month y mo) && (h <? 24) && (mi <? 60)
         && (sec <? 60) && (oh <? 24) && (om <? 60)
      then
        let local := (days_from_civil y mo d * 24 + h) * 3600 + mi * 60 + sec in
        Some ((local - sg * (oh * 3600 + om * 60)) * 1000000)
      else None
  | _ => None
  end.

Fixpoint loads_table (tbl : list (string * event)) (line : string)
    : option event :=
  match tbl with
  | [] => None
  | (l, e) :: tbl' => if String.eqb l line then Some e else loads_table tbl' line
  end.

(** The fields of a well-formed event: string fields and an integer
    request budget. *)
Definition event_fields (time ty tid tgt : string) (n : Z)
    : list (string * value) :=
  [("time", VStr time); ("event_type", VStr ty); ("template_id", VStr tid);
   ("target", VStr tgt); ("template_path", VStr "http/sample.yaml");
   ("max_requests", VInt n)].

Definition mk_event (time ty tid tgt : string) (n : Z) : event :=
  list_to_map (event_fields time ty tid tgt n).

(** The JSON text of a flat object, to write sample log lines. *)
Definition dquote : string := String (ascii_of_nat 34) EmptyString.

Definition newline : string := String (ascii_of_nat 10) EmptyString.

Definition json_value (v : value) : string :=
  match v with
  | VNone => "null"
  | VBool true => "true"
  | VBool false => "false"
  | VInt n => pretty n
  | VStr s => dquote +:+ s +:+ dquote
  end.

Fixpoint json_members (fields : list (string * value)) : string :=
  match fields with
  | [] => EmptyString
  | [(k, v)] => dquote +:+ k +:+ dquote +:+ ": " +:+ json_value v
  | (k, v) :: rest =>
      dquote +:+ k +:+ dquote +:+ ": " +:+ json_value v +:+ ", "
      +:+ json_members rest
  end.

Definition json_line (fields : list (string * value)) : string :=
  "{" +:+ json_members fields +:+ "}".

(** Sample events: one scan of template [cve-2021-1234] against
    [example.com] that starts at midnight, is started again five seconds
    later, reports progress and ends after ten seconds. *)
Definition start_a_fields : list (string * value) :=
  event_fields "2024-01-01T00:00:00Z" "scan_start" "cve-2021-1234"
               "example.com" 50.

Definition end_a_fields : list (string * value) :=
  event_fields "2024-01-01T00:00:10Z" "scan_end" "cve-2021-1234"
               "example.com" 50.

Definition start_a : event := list_to_map start_a_fields.

Definition end_a : event := list_to_map end_a_fields.

Definition restart_a : event :=
  mk_event "2024-01-01T00:00:05Z" "scan_start" "cve-2021-1234" "example.com" 50.

Definition progress_a : event :=
  mk_event "2024-01-01T00:00:07Z" "scan_progress" "cve-2021-1234"
           "example.com" 50.

(** The lines of the sample log and the dicts they denote; the last line
    is an empty JSON object. *)
Definition sample_lines : list (string * event) :=
  [(json_line start_a_fields, start_a); (json_line end_a_fields, end_a);
   ("{}", ∅)].

(** Three sample logs: a complete scan, a scan that never ends, and a
    single empty object. *)
Definition log_complete : string :=
  json_line start_a_fields +:+ newline +:+ json_line end_a_fields +:+ newline.

Definition log_started : string := json_line start_a_fields +:+ newline.



(** [start_a] without its [time] field. *)
Definition untimed_a : event := delete "time" start_a.

(** [start_a] with a [time] that is no timestamp. *)
Definition mistimed_a : event :=
  mk_event "yesterday" "scan_start" "cve-2021-1234" "example.com" 50.

(** Scenario 2 of the specification: scan A runs from 0 s to 10 s with a
    budget of 100, scan B from 5 s to 15 s with a budget of 50. *)
Definition scenario_two_groups : list event :=
  [mk_event "2024-01-01T00:00:00Z" "scan_start" "template-a" "example.com" 100;
   mk_event "2024-01-01T00:00:05Z" "scan_start" "template-b" "example.com" 50;
   mk_event "2024-01-01T00:00:10Z" "scan_end" "template-a" "example.com" 100;
   mk_event "2024-01-01T00:00:15Z" "scan_end" "template-b" "example.com" 50].

(** Two scans of different templates against different hosts. *)
Definition start_detect : event :=
  mk_event "2024-01-01T00:00:00Z" "scan_start" "detect" "dev_api.example.com" 10.

Definition start_detect_dev : event :=
  mk_event "2024-01-01T00:00:01Z" "scan_start" "detect_dev" "api.example.com" 20.

Definition key_a : string := "cve-2021-1234_example.com".

(** Midnight of 2024-01-01 UTC, in microseconds since the epoch. *)
Definition midnight : Z := 1704067200000000.

(** A file system holding one file. *)
Definition one_file (path content : string) : string -> option string :=
  fun p => if String.eqb p path then Some content else None.

(** ** Scan groups *)

Record scan : Type := Scan {
  template_id : value;
  target : value;
  template_path : value;
  max_requests : value;
  start_time : option Z;
  end_time : option Z
}.

Definition set_start_time (t : Z) (g : scan) : scan :=
  Scan (template_id g) (target g) (template_path g) (max_requests g)
       (Some t) (end_time g).

Definition set_end_time (t : Z) (g : scan) : scan :=
  Scan (template_id g) (target g) (template_path g) (max_requests g)
       (start_time g) (Some t).

(** The group of the sample scan, with the given instants. *)
Definition group_a (s e : option Z) : scan :=
  Scan (VStr "cve-2021-1234") (VStr "example.com") (VStr "http/sample.yaml")
       (VInt 50) s e.

(** [f"{event['template_id']}_{event['target']}"] *)
Definition scan_key (e : event) : result string :=
  tid ← subscript e "template_id";
  tgt ← subscript e "target";
  Ok (str tid +:+ "_" +:+ str tgt).

(** The dict stored on first sight of a key. *)
Definition new_scan (e : event) : result scan :=
  tid ← subscript e "template_id";
  tgt ← subscript e "target";
  path ← subscript e "template_path";
  reqs ← subscript e "max_requests";
  Ok (Scan tid tgt path reqs None None).

(** [scan["start_time"] and scan["end_time"]]: a [datetime] is always
    true, [None] is false. *)
Definition is_completed (g : scan) : bool :=
  match start_time g, end_time g with
  | Some _, Some _ => true
  | _, _ => false
  end.

(** [[scan for scan in scan_groups.values() if ...]].  The list is produced
    in the map's own order; everything computed from it (a length, sums,
    minima and maxima) does not depend on the order. *)
Definition completed_scans (scan_groups : gmap string scan) : list scan :=
  List.filter is_completed (snd <$> map_to_list scan_groups).

(** [sum(...)] over request budgets, starting from the integer 0. *)
Fixpoint sum_values (acc : Z) (vs : list value) : result Z :=
  match vs with
  | [] => Ok acc
  | v :: vs' => acc' ← add_value acc v; sum_values acc' vs'
  end.

(** The two instants of a scan; on [None] the later [min] or subtraction
    would raise [TypeError]. *)
Definition scan_times (g : scan) : result (Z * Z) :=
  match start_time g, end_time g with
  | Some s, Some e => Ok (s, e)
  | _, _ => Raise TypeError
  end.

Fixpoint all_times_of (scans : list scan) : result (list Z) :=
  match scans with
  | [] => Ok []
  | g :: gs =>
      '(s, e) ← scan_times g;
      rest ← all_times_of gs;
      Ok (s :: e :: rest)
  end.

Fixpoint durations_of (scans : list scan) : result (list Q) :=
  match scans with
  | [] => Ok []
  | g :: gs =>
      '(s, e) ← scan_times g;
      rest ← durations_of gs;
      Ok (total_seconds (e - s) :: rest)
  end.

Definition q_sum (l : list Q) : Q := foldl Qplus 0%Q l.

Definition q_min (l : list Q) : result Q :=
  match l with
  | [] => Raise ValueError
  | x :: xs => Ok (foldl Qmin x xs)
  end.

Definition q_max (l : list Q) : result Q :=
  match l with
  | [] => Raise ValueError
  | x :: xs => Ok (foldl Qmax x xs)
  end.

(** What the statistics branch of [main] computes and prints. *)
Record statistics : Type := Statistics {
  total_requests : Z;
  time_span : Q;
  mean_reqs_per_sec : Q;
  avg_scan_duration : Q;
  shortest_scan : Q;
  longest_scan : Q
}.

(** Lines 115-147 of the script, for a non-empty list of completed scans. *)
Definition scan_statistics (completed : list scan) : result statistics :=
  total ← sum_values 0 (max_requests <$> completed);
  all_times ← all_times_of completed;
  first ← py_min all_times;
  last ← py_max all_times;
  let secs := total_seconds (last - first) in
  let mean :=
    if negb (Qle_bool secs 0) then (inject_Z total / secs)%Q
    else inject_Z total in
  durations ← durations_of completed;
  let avg := (q_sum durations / inject_Z (Z.of_nat (length durations)))%Q in
  lo ← q_min durations;
  hi ← q_max durations;
  Ok (Statistics total secs mean avg lo hi).

(** ** Program output *)

(** One constructor per [print] call of the script; numbers are kept as
    numbers rather than formatted. *)
Inductive output : Type :=
  | PrintAnalyzing (events_file : string)
  | PrintRule
  | PrintFileNotFound (file_path : string)
  | PrintJSONError
  | PrintTotalEvents (n : nat)
  | PrintUniqueScans (n : nat)
  | PrintCompletedScans (n : nat)
  | PrintResults (total : Z) (span mean : Q)
  | PrintAdditional (avg shortest longest : Q)
  | PrintNoCompleted.

(** The status the interpreter exits with: 0 when [main] returns, the
    argument of [sys.exit], and 1 for an uncaught exception. *)
Definition exit_status (r : result unit) : Z :=
  match r with
  | Ok _ => 0
  | Raise (SystemExit code) => code
  | Raise _ => 1
  end.

(** The exceptions raised by [sys.exit]. *)
Definition is_exit (x : exn) : bool :=
  match x with
  | SystemExit _ => true
  | _ => false
  end.

(** The lines of the report proper: the statistics and the message that
    stands in for them. *)
Definition is_report_line (o : output) : bool :=
  match o with
  | PrintResults _ _ _ | PrintNoCompleted => true
  | _ => false
  end.

Section Program.

(** [datetime.fromisoformat]: the UTC instant, in microseconds, of an
    ISO 8601 string, or [None] where it raises [ValueError]. *)
Variable fromisoformat : string -> option Z.

(** [json.loads] on one line: the dict, or [None] where it raises
    [JSONDecodeError]. *)
Variable json_loads : string -> option event.

(** [datetime.fromisoformat(event["time"].replace("Z", "+00:00"))] *)
Definition parse_time (e : event) : result Z :=
  v ← subscript e "time";
  match v with
  | VStr s =>
      match fromisoformat (replace "Z" "+00:00" s) with
      | Some t => Ok t
      | None => Raise ValueError
      end
  | _ => Raise AttributeError
  end.

(** *** calculate_mean_reqs_per_sec *)

(** The [for] loop of lines 39-45, on the accumulators it updates. *)
Fixpoint collect (events : list event) (timestamps : list Z) (total : Z)
    : result (list Z * Z) :=
  match events with
  | [] => Ok (timestamps, total)
  | e :: es =>
      t ← parse_time e;
      total' ← add_value total (default (VInt 1) (e !! "max_requests"));
      collect es (timestamps ++ [t]) total'
  end.

Definition calculate_mean_reqs_per_sec (events : list event) : result Q :=
  match events with
  | [] => Ok 0%Q
  | _ =>
      '(timestamps, total) ← collect events [] 0;
      if (length timestamps <? 2)%nat then Ok 0%Q
      else
        first ← py_min timestamps;
        last ← py_max timestamps;
        let secs := total_seconds (last - first) in
        if Qeq_bool secs 0 then Ok (inject_Z total)
        else Ok (inject_Z total / secs)%Q
  end.

(** *** The grouping loop of main *)

(** One iteration of lines 82-101 on the dict [scan_groups]. *)
Definition group_step (scan_groups : gmap string scan) (e : event)
    : result (gmap string scan) :=
  key ← scan_key e;
  groups ← match scan_groups !! key with
           | Some _ => Ok scan_groups
           | None => g ← new_scan e; Ok (<[key := g]> scan_groups)
           end;
  ty ← subscript e "event_type";
  if decide (ty = VStr "scan_start") then
    t ← parse_time e; Ok (alter (set_start_time t) key groups)
  else if decide (ty = VStr "scan_end") then
    t ← parse_time e; Ok (alter (set_end_time t) key groups)
  else Ok groups.

Fixpoint group_loop (events : list event) (scan_groups : gmap string scan)
    : result (gmap string scan) :=
  match events with
  | [] => Ok scan_groups
  | e :: es => groups ← group_step scan_groups e; group_loop es groups
  end.

Definition group_events (events : list event) : result (gmap string scan) :=
  group_loop events ∅.

(** *** parse_events_file *)

(** The loop of lines 17-20: [None] as soon as a non-blank line does not
    parse. *)
Fixpoint load_lines (lines : list string) : option (list event) :=
  match lines with
  | [] => Some []
  | line :: rest =>
      match strip line with
      | EmptyString => load_lines rest
      | l => e ← json_loads l; es ← load_lines rest; Some (e :: es)
      end
  end.

(** [fs path] is the content of the file at [path], [None] when there is
    no such file (the one failure of [open] considered).  Returns what was
    printed and the events, or the [SystemExit] raised by [sys.exit(1)]. *)
Definition parse_events_file (fs : string -> option string)
    (file_path : string) : list output * result (list event) :=
  match fs file_path with
  | None => ([PrintFileNotFound file_path], Raise (SystemExit 1))
  | Some content =>
      match load_lines (file_lines content) with
      | Some events => ([], Ok events)
      | None => ([PrintJSONError], Raise (SystemExit 1))
      end
  end.

(** *** main *)

(** Lines 104-150: the report on the grouped scans. *)
Definition report (scan_groups : gmap string scan)
    : list output * result unit :=
  let completed := completed_scans scan_groups in
  let counts := [PrintUniqueScans (size scan_groups);
                 PrintCompletedScans (length completed)] in
  match completed with
  | [] => (counts ++ [PrintNoCompleted], Ok ())
  | _ =>
      match scan_statistics completed with
      | Ok st =>
          (counts ++
           [PrintResults (total_requests st) (time_span st)
                         (mean_reqs_per_sec st);
            PrintAdditional (avg_scan_duration st) (shortest_scan st)
                            (longest_scan st)],
           Ok ())
      | Raise e => (counts, Raise e)
      end
  end.

(** Lines 66-71: [default_events_file] is the path derived from
    [__file__], [argv] is [sys.argv].  A path is kept as the string it was
    given as. *)
Definition events_file (default_events_file : string)
    (argv : list string) : string :=
  match argv with
  | _ :: path :: _ => path
  | _ => default_events_file
  end.

Definition main (fs : string -> option string)
    (default_events_file : string) (argv : list string)
    : list output * result unit :=
  let file := events_file default_events_file argv in
  let banner := [PrintAnalyzing file; PrintRule] in
  match parse_events_file fs file with
  | (out, Raise e) => (banner ++ out, Raise e)
  | (out, Ok events) =>
      let out := banner ++ out ++ [PrintTotalEvents (length events)] in
      match group_events events with
      | Raise e => (out, Raise e)
      | Ok scan_groups =>
          let '(out', r) := report scan_groups in (out ++ out', r)
      end
  end.

(** ** Vocabulary of the properties *)

(** [e] is a [scan_start] (resp. [scan_end]) event of the group [key]. *)
Definition is_start (e : event) (key : string) : Prop :=
  scan_key e = Ok key /\ e !! "event_type" = Some (VStr "scan_start").

Definition is_end (e : event) (key : string) : Prop :=
  scan_key e = Ok key /\ e !! "event_type" = Some (VStr "scan_end").

(** The two boundaries of a scan, to state facts about [start_time] and
    [end_time] once. *)
Inductive boundary : Type := AtStart | AtEnd.

Definition boundary_type (b : boundary) : string :=
  match b with
  | AtStart => "scan_start"
  | AtEnd => "scan_end"
  end.

Definition boundary_time (b : boundary) (g : scan) : option Z :=
  match b with
  | AtStart => start_time g
  | AtEnd => end_time g
  end.

Definition is_boundary (b : boundary) (e : event) (key : string) : Prop :=
  scan_key e = Ok key /\
  e !! "event_type" = Some (VStr (boundary_type b)).

(** [m] is the least (resp. greatest) instant satisfying [P]. *)
Definition least (P : Z -> Prop) (m : Z) : Prop :=
  P m /\ forall t, P t -> m <= t.

Definition greatest (P : Z -> Prop) (m : Z) : Prop :=
  P m /\ forall t, P t -> t <= m.

(** The timestamps of a raw event list. *)
Definition event_time (events : list event) (t : Z) : Prop :=
  exists e, e ∈ events /\ parse_time e = Ok t.

(** The request count an event contributes to the flat total: its
    [max_requests], 1 when the field is absent. *)
Definition numeric_or_absent (e : event) : Prop :=
  forall v, e !! "max_requests" = Some v -> is_Some (int_of_value v).

Definition event_requests (e : event) : Z :=
  match e !! "max_requests" with
  | None => 1
  | Some v => default 0 (int_of_value v)
  end.

Definition flat_requests (events : list event) : Z :=
  foldr (fun e acc => event_requests e + acc) 0 events.





(** What one iteration makes of the group [g0] it works on: the group with
    its start (resp. end) instant replaced by the event's timestamp on a
    scan_start (resp. scan_end) event, the group itself otherwise. *)
Definition updated (e : event) (g0 g : scan) : Prop :=
  exists ty, e !! "event_type" = Some ty /\
    ((ty = VStr "scan_start" /\
      exists t, parse_time e = Ok t /\ g = set_start_time t g0) \/
     (ty = VStr "scan_end" /\
      exists t, parse_time e = Ok t /\ g = set_end_time t g0) \/
     (ty <> VStr "scan_start" /\ ty <> VStr "scan_end" /\ g = g0)).

(** ** The error monad *)

Lemma bind_Ok {A B : Type} (r : result A) (k : A -> result B) (b : B) :
  r ≫= k = Ok b -> exists a, r = Ok a /\ k a = Ok b.
Proof. destruct r as [a|x]; simpl; [eauto | discriminate]. Qed.

Lemma subscript_Ok (e : event) (k : string) (v : value) :
  subscript e k = Ok v <-> e !! k = Some v.
Proof.
  unfold subscript. destruct (e !! k); split; intros H; congruence.
Qed.

(** ** Minimum and maximum of a list of instants *)

Lemma foldl_min_spec (xs : list Z) (x : Z) :
  let m := foldl Z.min x xs in
  m <= x /\ (forall t, t ∈ xs -> m <= t) /\ (m = x \/ m ∈ xs).
Proof.
  revert x. induction xs as [|y ys IH]; intros x; simpl.
  - split; [lia|]. split; [|by left]. intros t Ht. inversion Ht.
  - destruct (IH (Z.min x y)) as (Hle & Hall & Hin).
    split; [lia|]. split.
    + intros t Ht. apply elem_of_cons in Ht as [->|Ht]; [lia | auto].
    + destruct Hin as [Heq|Hin].
      * destruct (Z.min_spec x y) as [[_ Hm]|[_ Hm]];
          [left; lia | right; apply elem_of_cons; left; lia].
      * right. apply elem_of_cons. by right.
Qed.

Lemma foldl_max_spec (xs : list Z) (x : Z) :
  let m := foldl Z.max x xs in
  x <= m /\ (forall t, t ∈ xs -> t <= m) /\ (m = x \/ m ∈ xs).
Proof.
  revert x. induction xs as [|y ys IH]; intros x; simpl.
  - split; [lia|]. split; [|by left]. intros t Ht. inversion Ht.
  - destruct (IH (Z.max x y)) as (Hle & Hall & Hin).
    split; [lia|]. split.
    + intros t Ht. apply elem_of_cons in Ht as [->|Ht]; [lia | auto].
    + destruct Hin as [Heq|Hin].
      * destruct (Z.max_spec x y) as [[_ Hm]|[_ Hm]];
          [right; apply elem_of_cons; left; lia | left; lia].
      * right. apply elem_of_cons. by right.
Qed.

Lemma py_min_least (l : list Z) (m : Z) :
  py_min l = Ok m -> least (fun t => t ∈ l) m.
Proof.
  destruct l as [|x xs]; simpl; [discriminate|]. intros [= <-].
  destruct (foldl_min_spec xs x) as (Hle & Hall & Hin). split.
  - apply elem_of_cons. destruct Hin; auto.
  - intros t Ht. apply elem_of_cons in Ht as [->|Ht]; auto.
Qed.

Lemma py_max_greatest (l : list Z) (m : Z) :
  py_max l = Ok m -> greatest (fun t => t ∈ l) m.
Proof.
  destruct l as [|x xs]; simpl; [discriminate|]. intros [= <-].
  destruct (foldl_max_spec xs x) as (Hle & Hall & Hin). split.
  - apply elem_of_cons. destruct Hin; auto.
  - intros t Ht. apply elem_of_cons in Ht as [->|Ht]; auto.
Qed.

Lemma py_min_defined (l : list Z) : l <> [] -> exists m, py_min l = Ok m.
Proof. destruct l; [done | simpl; eauto]. Qed.

Lemma py_max_defined (l : list Z) : l <> [] -> exists m, py_max l = Ok m.
Proof. destruct l; [done | simpl; eauto]. Qed.

Lemma least_ext (P P' : Z -> Prop) (m m' : Z) :
  (forall t, P t <-> P' t) -> least P m -> least P' m' -> m = m'.
Proof.
  intros Hext [Hm Hlo] [Hm' Hlo'].
  apply Hext in Hm. apply Hext in Hm'.
  specialize (Hlo _ Hm'). specialize (Hlo' _ Hm). lia.
Qed.

Lemma greatest_ext (P P' : Z -> Prop) (m m' : Z) :
  (forall t, P t <-> P' t) -> greatest P m -> greatest P' m' -> m = m'.
Proof.
  intros Hext [Hm Hhi] [Hm' Hhi'].
  apply Hext in Hm. apply Hext in Hm'.
  specialize (Hhi _ Hm'). specialize (Hhi' _ Hm). lia.
Qed.

(** ** The flat mean *)

Lemma Qeq_bool_total_seconds (td : Z) :
  Qeq_bool (total_seconds td) 0 = (td =? 0).
Proof. unfold Qeq_bool, total_seconds. simpl. by rewrite Z.mul_1_r. Qed.

Lemma Qle_bool_total_seconds (td : Z) :
  Qle_bool (total_seconds td) 0 = (td <=? 0).
Proof. unfold Qle_bool, total_seconds. simpl. by rewrite Z.mul_1_r. Qed.

Lemma add_value_get (e : event) (total : Z) :
  numeric_or_absent e ->
  add_value total (default (VInt 1) (e !! "max_requests"))
  = Ok (total + event_requests e).
Proof.
  unfold numeric_or_absent, event_requests, add_value. intros Hnum.
  destruct (e !! "max_requests") as [v|]; simpl; [|done].
  destruct (Hnum v eq_refl) as [n Hn]. by rewrite Hn.
Qed.

Lemma event_time_nil (t : Z) : ~ event_time [] t.
Proof. intros (e & He & _). inversion He. Qed.

Lemma event_time_cons (e : event) (es : list event) (t : Z) :
  event_time (e :: es) t <-> parse_time e = Ok t \/ event_time es t.
Proof.
  unfold event_time. split.
  - intros (e' & Hin & Ht). apply elem_of_cons in Hin as [->|Hin]; eauto.
  - intros [Ht|(e' & Hin & Ht)].
    + exists e. split; [apply elem_of_cons; by left | done].
    + exists e'. split; [apply elem_of_cons; by right | done].
Qed.

(** The loop returns one timestamp per event, in order after the ones it
    started with, and adds every event's request count to the total. *)
Lemma collect_Ok (events : list event) :
  Forall (fun e => exists t, parse_time e = Ok t) events ->
  Forall numeric_or_absent events ->
  forall (timestamps : list Z) (total : Z),
  exists ts,
    collect events timestamps total
    = Ok (timestamps ++ ts, total + flat_requests events) /\
    length ts = length events /\
    forall t, t ∈ ts <-> event_time events t.
Proof.
  induction events as [|e es IH]; intros Hparse Hnum timestamps total.
  - exists []. simpl. rewrite app_nil_r, Z.add_0_r. split; [done|].
    split; [done|]. intros t. split; [inversion 1|].
    intros Ht. by apply event_time_nil in Ht.
  - apply Forall_cons in Hparse as [[t0 Ht0] Hparse].
    apply Forall_cons in Hnum as [Hn0 Hnum].
    destruct (IH Hparse Hnum (timestamps ++ [t0]) (total + event_requests e))
      as (ts & Hrun & Hlen & Hmem).
    exists (t0 :: ts). cbn [collect]. rewrite Ht0. simpl.
    rewrite (add_value_get e total Hn0). simpl. rewrite Hrun.
    split.
    + f_equal. f_equal; [by rewrite <- app_assoc | simpl; lia].
    + split; [simpl; by rewrite Hlen|].
      intros t. rewrite elem_of_cons, event_time_cons, Hmem.
      split; intros [H|H]; auto; left; congruence.
Qed.

(** The value of the flat mean on two or more well-formed events, in
    terms of the least and greatest timestamp. *)
Lemma flat_mean_value (events : list event) (lo hi : Z) :
  (2 <= length events)%nat ->
  Forall (fun e => exists t, parse_time e = Ok t) events ->
  Forall numeric_or_absent events ->
  least (event_time events) lo ->
  greatest (event_time events) hi ->
  calculate_mean_reqs_per_sec events
  = Ok (if hi - lo =? 0 then inject_Z (flat_requests events)
        else (inject_Z (flat_requests events) / total_seconds (hi - lo))%Q).
Proof.
  intros Hlen Hparse Hnum Hlo Hhi.
  destruct (collect_Ok events Hparse Hnum [] 0) as (ts & Hrun & Hlts & Hmem).
  unfold calculate_mean_reqs_per_sec.
  destruct events as [|e es]; [simpl in Hlen; lia|].
  rewrite Hrun. simpl app. cbn [mbind result_bind]. rewrite Z.add_0_l.
  assert (Hts : ts <> []).
  { intros ->. simpl in Hlts, Hlen. lia. }
  destruct (Nat.ltb_spec (length ts) 2) as [Hlt|_]; [lia|].
  destruct (py_min_defined ts Hts) as [first Hfirst].
  destruct (py_max_defined ts Hts) as [last Hlast].
  rewrite Hfirst, Hlast. cbn [mbind result_bind].
  apply py_min_least in Hfirst. apply py_max_greatest in Hlast.
  assert (first = lo) as ->
    by exact (least_ext _ _ _ _ Hmem Hfirst Hlo).
  assert (last = hi) as ->
    by exact (greatest_ext _ _ _ _ Hmem Hlast Hhi).
  rewrite Qeq_bool_total_seconds. by destruct (hi - lo =? 0).
Qed.


(** ** One iteration of the grouping loop *)

Lemma alter_present (f : scan -> scan) (groups : gmap string scan)
    (key : string) (g : scan) :
  groups !! key = Some g -> alter f key groups = <[key := f g]> groups.
Proof.
  intros Hg. apply map_eq. intros j. destruct (decide (key = j)) as [<-|Hne].
  - by rewrite lookup_alter_eq, lookup_insert_eq, Hg.
  - by rewrite lookup_alter_ne, lookup_insert_ne.
Qed.

Lemma new_scan_Ok (e : event) (g : scan) :
  new_scan e = Ok g ->
  start_time g = None /\ end_time g = None /\
  e !! "template_id" = Some (template_id g) /\
  e !! "target" = Some (target g) /\
  e !! "template_path" = Some (template_path g) /\
  e !! "max_requests" = Some (max_requests g).
Proof.
  unfold new_scan. intros H.
  apply bind_Ok in H as (tid & Htid & H).
  apply bind_Ok in H as (tgt & Htgt & H).
  apply bind_Ok in H as (path & Hpath & H).
  apply bind_Ok in H as (reqs & Hreqs & H).
  injection H as <-. simpl.
  apply subscript_Ok in Htid, Htgt, Hpath, Hreqs. auto 10.
Qed.

(** The group an iteration works on is the stored one or, for a new key,
    the one built from the event; the iteration stores it back with at
    most one of its two instants replaced. *)
Lemma group_step_Ok (groups groups' : gmap string scan) (e : event) :
  group_step groups e = Ok groups' ->
  exists key g0 ty,
    scan_key e = Ok key /\
    (groups !! key = Some g0 \/
     (groups !! key = None /\ new_scan e = Ok g0)) /\
    e !! "event_type" = Some ty /\
    ((ty = VStr "scan_start" /\ exists t, parse_time e = Ok t /\
        groups' = <[key := set_start_time t g0]> groups) \/
     (ty = VStr "scan_end" /\ exists t, parse_time e = Ok t /\
        groups' = <[key := set_end_time t g0]> groups) \/
     (ty <> VStr "scan_start" /\ ty <> VStr "scan_end" /\
        groups' = <[key := g0]> groups)).
Proof.
  unfold group_step. intros H.
  apply bind_Ok in H as (key & Hkey & H).
  apply bind_Ok in H as (mid & Hmid & H).
  apply bind_Ok in H as (ty & Hty & H).
  apply subscript_Ok in Hty.
  assert (exists g0,
    (groups !! key = Some g0 \/
     (groups !! key = None /\ new_scan e = Ok g0)) /\
    mid = <[key := g0]> groups) as (g0 & Hg0 & ->).
  { destruct (groups !! key) as [g|] eqn:Hlook.
    - injection Hmid as <-. exists g. split; [by left|].
      by rewrite insert_id.
    - apply bind_Ok in Hmid as (g & Hnew & Hmid). injection Hmid as <-.
      exists g. split; [by right | done]. }
  exists key, g0, ty. split; [done|]. split; [done|]. split; [done|].
  destruct (decide (ty = VStr "scan_start")) as [Hs|Hs].
  - left. split; [done|].
    apply bind_Ok in H as (t & Ht & H). injection H as <-.
    exists t. split; [done|]. by rewrite alter_insert_eq.
  - destruct (decide (ty = VStr "scan_end")) as [He|He].
    + right. left. split; [done|].
      apply bind_Ok in H as (t & Ht & H). injection H as <-.
      exists t. split; [done|]. by rewrite alter_insert_eq.
    + right. right. injection H as <-. done.
Qed.

Lemma group_step_other (groups groups' : gmap string scan) (e : event)
    (k : string) :
  group_step groups e = Ok groups' -> scan_key e <> Ok k ->
  groups' !! k = groups !! k.
Proof.
  intros H Hk.
  apply group_step_Ok in H as (key & g0 & ty & Hkey & _ & _ & H).
  assert (key <> k) by congruence.
  destruct H as [(_ & t & _ & ->)|[(_ & t & _ & ->)|(_ & _ & ->)]];
    by rewrite lookup_insert_ne.
Qed.

Lemma group_step_keeps_key (groups groups' : gmap string scan) (e : event)
    (k : string) :
  group_step groups e = Ok groups' -> is_Some (groups !! k) ->
  is_Some (groups' !! k).
Proof.
  intros H Hk.
  apply group_step_Ok in H as (key & g0 & ty & Hkey & _ & _ & H).
  destruct H as [(_ & t & _ & ->)|[(_ & t & _ & ->)|(_ & _ & ->)]];
    (destruct (decide (key = k)) as [->|Hne];
     [rewrite lookup_insert_eq; eauto | by rewrite lookup_insert_ne]).
Qed.

(** After an iteration, an instant of a group is the event's timestamp
    if the event is the matching boundary of that group, and is what it
    was before otherwise ([None] for a group just created). *)
Lemma group_step_time (b : boundary) (groups groups' : gmap string scan)
    (e : event) (k : string) (g' : scan) :
  group_step groups e = Ok groups' -> groups' !! k = Some g' ->
  (is_boundary b e k /\
     exists t, parse_time e = Ok t /\ boundary_time b g' = Some t) \/
  (~ is_boundary b e k /\
     boundary_time b g' = groups !! k ≫= boundary_time b).
Proof.
  intros H Hg'.
  pose proof (group_step_Ok _ _ _ H)
    as (key & g0 & ty & Hkey & Hg0 & Hty & Hcases).
  destruct (decide (key = k)) as [->|Hne].
  2:{ assert (Hk : scan_key e <> Ok k) by congruence.
      right. split; [by intros [? _]|].
      rewrite <- (group_step_other _ _ _ _ H Hk), Hg'. done. }
  clear H. rename Hcases into H.
  assert (Hold : groups !! k ≫= boundary_time b = boundary_time b g0).
  { destruct Hg0 as [->|[-> Hnew]]; [done|].
    apply new_scan_Ok in Hnew as (Hs & He & _). by destruct b. }
  rewrite Hold. unfold is_boundary. rewrite Hty.
  destruct H as [(-> & t & Ht & ->)|[(-> & t & Ht & ->)|(Hs & He & ->)]];
    rewrite lookup_insert_eq in Hg'; injection Hg' as <-;
    destruct b; simpl;
    solve [ left; eauto | right; split; [intros [_ [=]]; congruence | done] ].
Qed.

Lemma group_step_sets (b : boundary) (groups groups' : gmap string scan)
    (e : event) (k : string) :
  group_step groups e = Ok groups' -> is_boundary b e k ->
  exists g t, groups' !! k = Some g /\ parse_time e = Ok t /\
              boundary_time b g = Some t.
Proof.
  intros H [Hk Hty].
  assert (is_Some (groups' !! k)) as [g Hg].
  { apply group_step_Ok in H as (key & g0 & ty & Hkey & _ & _ & H).
    assert (key = k) as -> by congruence.
    destruct H as [(_ & t & _ & ->)|[(_ & t & _ & ->)|(_ & _ & ->)]];
      rewrite lookup_insert_eq; eauto. }
  destruct (group_step_time b _ _ _ _ _ H Hg) as [(_ & t & Ht & Hb)|[Hn _]].
  - eauto.
  - destruct Hn. by split.
Qed.

(** ** The grouping loop *)

Lemma group_loop_app (pre post : list event)
    (groups groups' : gmap string scan) :
  group_loop (pre ++ post) groups = Ok groups' ->
  exists mid, group_loop pre groups = Ok mid /\
              group_loop post mid = Ok groups'.
Proof.
  revert groups. induction pre as [|e pre IH]; intros groups H; simpl in *.
  - eauto.
  - apply bind_Ok in H as (next & Hstep & H). rewrite Hstep. simpl. eauto.
Qed.

(** Events that are not the [b] boundary of group [k] leave that instant
    of the group as it is. *)
Lemma group_loop_keeps_time (b : boundary) (events : list event) (k : string) :
  (forall e, e ∈ events -> ~ is_boundary b e k) ->
  forall (groups groups' : gmap string scan) (g : scan),
  group_loop events groups = Ok groups' -> groups !! k = Some g ->
  exists g', groups' !! k = Some g' /\
             boundary_time b g' = boundary_time b g.
Proof.
  induction events as [|e es IH]; intros Hnone groups groups' g H Hg;
    simpl in H.
  - injection H as <-. eauto.
  - apply bind_Ok in H as (next & Hstep & H).
    destruct (group_step_keeps_key _ _ _ k Hstep) as [g1 Hg1]; [eauto|].
    destruct (group_step_time b _ _ _ _ _ Hstep Hg1)
      as [(Hb & _)|(_ & Hsame)].
    + destruct (Hnone e); [apply elem_of_cons; by left | done].
    + rewrite Hg in Hsame. simpl in Hsame.
      destruct (IH (fun e' He' => Hnone e' (list_elem_of_further _ _ _ He'))
                   _ _ _ H Hg1) as (g' & Hg' & Ht).
      exists g'. split; [done | congruence].
Qed.

(** The last [b] boundary event of a group decides that instant. *)
Lemma group_loop_last (b : boundary) (pre post : list event) (e : event)
    (k : string) (groups groups' : gmap string scan) :
  group_loop (pre ++ e :: post) groups = Ok groups' ->
  is_boundary b e k ->
  (forall e', e' ∈ post -> ~ is_boundary b e' k) ->
  exists g t, groups' !! k = Some g /\ parse_time e = Ok t /\
              boundary_time b g = Some t.
Proof.
  intros H He Hpost.
  apply group_loop_app in H as (mid & _ & H). simpl in H.
  apply bind_Ok in H as (next & Hstep & H).
  destruct (group_step_sets b _ _ _ _ Hstep He) as (g1 & t & Hg1 & Ht & Hb).
  destruct (group_loop_keeps_time b post k Hpost _ _ _ H Hg1)
    as (g & Hg & Hsame).
  exists g, t. split; [done|]. split; [done | congruence].
Qed.

(** An instant of a group is set exactly when it was set at the start of
    the loop or the loop met a matching boundary event of the group. *)
Lemma group_loop_time_set (b : boundary) (events : list event) (k : string) :
  forall (groups groups' : gmap string scan) (g : scan),
  group_loop events groups = Ok groups' -> groups' !! k = Some g ->
  (is_Some (boundary_time b g) <->
   is_Some (groups !! k ≫= boundary_time b) \/
   exists e, e ∈ events /\ is_boundary b e k).
Proof.
  induction events as [|e es IH]; intros groups groups' g H Hg; simpl in H.
  - injection H as <-. rewrite Hg. simpl. split; [by left|].
    intros [Hset|(e & He & _)]; [done | inversion He].
  - apply bind_Ok in H as (next & Hstep & H).
    rewrite (IH _ _ _ H Hg). clear IH.
    assert (Hnext : is_Some (next !! k ≫= boundary_time b) <->
                    is_Some (groups !! k ≫= boundary_time b) \/
                    is_boundary b e k).
    { destruct (next !! k) as [g1|] eqn:Hg1.
      - destruct (group_step_time b _ _ _ _ _ Hstep Hg1)
          as [(Hb & t & _ & Ht)|(Hn & Hsame)]; simpl.
        + rewrite Ht. split; [by right | eauto].
        + rewrite Hsame. split; [by left | by intros [?|?]].
      - simpl. split; [by intros [? [=]]|].
        intros [Hset|Hb].
        + destruct (groups !! k) as [g0|] eqn:Hg0; [|by destruct Hset].
          destruct (group_step_keeps_key _ _ _ k Hstep) as [g1 Hg1'];
            [eauto | congruence].
        + destruct (group_step_sets b _ _ _ _ Hstep Hb) as (g1 & _ & ? & _).
          congruence. }
    rewrite Hnext. split.
    + intros [[Hset|Hb]|(e' & He' & Hb)]; [by left | |].
      * right. exists e. split; [apply elem_of_cons; by left | done].
      * right. exists e'. split; [apply elem_of_cons; by right | done].
    + intros [Hset|(e' & He' & Hb)]; [by left; left|].
      apply elem_of_cons in He' as [->|He']; [by left; right|].
      right. eauto.
Qed.

(** ** Completed scans and their statistics *)

Lemma completed_scans_elem (groups : gmap string scan) (g : scan) :
  g ∈ completed_scans groups <->
  is_completed g = true /\ exists key, groups !! key = Some g.
Proof.
  unfold completed_scans.
  rewrite list_elem_of_In, filter_In, <- list_elem_of_In, list_elem_of_fmap.
  split.
  - intros [([key g0] & -> & Hin) Hc]. split; [done|]. exists key.
    by apply elem_of_map_to_list.
  - intros [Hc [key Hkey]]. split; [|done]. exists (key, g).
    split; [done | by apply elem_of_map_to_list].
Qed.











(** ** Reading the log and running main *)






Lemma main_parsed (fs : string -> option string)
    (default_events_file : string) (argv : list string) (content : string)
    (events : list event) :
  let file := events_file default_events_file argv in
  fs file = Some content ->
  load_lines (file_lines content) = Some events ->
  main fs default_events_file argv
  = match group_events events with
    | Raise e =>
        ([PrintAnalyzing file; PrintRule; PrintTotalEvents (length events)],
         Raise e)
    | Ok groups =>
        ([PrintAnalyzing file; PrintRule; PrintTotalEvents (length events)]
         ++ (report groups).1, (report groups).2)
    end.
Proof.
  intros file Hfs Hload. subst file. unfold main, parse_events_file.
  cbv zeta. rewrite Hfs, Hload. simpl.
  destruct (group_events events) as [groups|x]; [|done].
  by destruct (report groups).
Qed.

(** ** Least and greatest instants from the computed lists *)

Lemma least_iff (P P' : Z -> Prop) (m : Z) :
  (forall t, P t <-> P' t) -> least P m -> least P' m.
Proof.
  intros Hext [Hm Hlo]. split; [by apply Hext|].
  intros t Ht. apply Hlo. by apply Hext.
Qed.

Lemma greatest_iff (P P' : Z -> Prop) (m : Z) :
  (forall t, P t <-> P' t) -> greatest P m -> greatest P' m.
Proof.
  intros Hext [Hm Hhi]. split; [by apply Hext|].
  intros t Ht. apply Hhi. by apply Hext.
Qed.



(** ** The properties of the specification *)



(** C4: the last scan_start event of a key met by the grouping loop
    decides the group's start_time, and the last scan_end event its
    end_time, whatever earlier events of the key carried. *)
Theorem last_boundary_event_wins (pre post : list event) (e : event)
    (key : string) (groups : gmap string scan) :
  group_events (pre ++ e :: post) = Ok groups ->
  (is_start e key ->
   (forall e', e' ∈ post -> ~ is_start e' key) ->
   exists g t, groups !! key = Some g /\ parse_time e = Ok t /\
               start_time g = Some t) /\
  (is_end e key ->
   (forall e', e' ∈ post -> ~ is_end e' key) ->
   exists g t, groups !! key = Some g /\ parse_time e = Ok t /\
               end_time g = Some t).
Proof.
  intros H. split; intros He Hpost.
  - exact (group_loop_last AtStart pre post e key _ _ H He Hpost).
  - exact (group_loop_last AtEnd pre post e key _ _ H He Hpost).
Qed.

(** C5 (as amended): the first-seen scan_start event of a key decides the
    group's start_time when no later scan_start event of that key
    follows it, and likewise the first-seen scan_end event and
    end_time. *)
Theorem first_boundary_event_wins_if_only (pre post : list event)
    (e : event) (key : string) (groups : gmap string scan) :
  group_events (pre ++ e :: post) = Ok groups ->
  (is_start e key ->
   (forall e', e' ∈ pre -> ~ is_start e' key) ->
   (forall e', e' ∈ post -> ~ is_start e' key) ->
   exists g t, groups !! key = Some g /\ parse_time e = Ok t /\
               start_time g = Some t) /\
  (is_end e key ->
   (forall e', e' ∈ pre -> ~ is_end e' key) ->
   (forall e', e' ∈ post -> ~ is_end e' key) ->
   exists g t, groups !! key = Some g /\ parse_time e = Ok t /\
               end_time g = Some t).
Proof.
  intros H. split; intros He _ Hpost.
  - exact (group_loop_last AtStart pre post e key _ _ H He Hpost).
  - exact (group_loop_last AtEnd pre post e key _ _ H He Hpost).
Qed.

(** C6: after the grouping loop, a group is among the completed scans
    exactly when the loop processed at least one scan_start event and at
    least one scan_end event with the group's key. *)
Theorem completed_iff_start_and_end (events : list event)
    (groups : gmap string scan) (key : string) (g : scan) :
  group_events events = Ok groups ->
  groups !! key = Some g ->
  (g ∈ completed_scans groups <->
   (exists e, e ∈ events /\ is_start e key) /\
   (exists e, e ∈ events /\ is_end e key)).
Proof.
  intros H Hg.
  pose proof (group_loop_time_set AtStart events key _ _ _ H Hg) as Hs.
  pose proof (group_loop_time_set AtEnd events key _ _ _ H Hg) as He.
  rewrite lookup_empty in Hs, He. simpl in Hs, He.
  rewrite completed_scans_elem. unfold is_completed. split.
  - intros [Hc _].
    destruct (start_time g) as [s|]; [|done].
    destruct (end_time g) as [t|]; [|done].
    split.
    + destruct (proj1 Hs (mk_is_Some _ _ eq_refl)) as [[? [=]]|Hex]; done.
    + destruct (proj1 He (mk_is_Some _ _ eq_refl)) as [[? [=]]|Hex]; done.
  - intros [Hstart Hend].
    destruct (proj2 Hs (or_intror Hstart)) as [s ->].
    destruct (proj2 He (or_intror Hend)) as [t ->].
    split; [done | eauto].
Qed.


(** C8 (as amended): on no event the flat mean is 0.0, and so it is on
    one event whose timestamp parses and whose request count is an
    integer or absent. *)
Theorem flat_mean_short_list (events : list event) :
  (length events <= 1)%nat ->
  Forall (fun e => exists t, parse_time e = Ok t) events ->
  Forall numeric_or_absent events ->
  calculate_mean_reqs_per_sec events = Ok 0%Q.
Proof.
  intros Hlen Hparse Hnum.
  destruct events as [|e [|e' es]]; [done | | simpl in Hlen; lia].
  apply Forall_cons in Hparse as [[t Ht] _].
  apply Forall_cons in Hnum as [Hn _].
  unfold calculate_mean_reqs_per_sec. cbn [collect]. rewrite Ht.
  cbn [mbind result_bind]. rewrite (add_value_get e 0 Hn). done.
Qed.


(** C10: an event whose key is already in the map leaves the group's
    template_id, target, template_path and max_requests as they are;
    when its event_type is neither scan_start nor scan_end the group,
    and the whole map, stay unchanged. *)
Theorem existing_group_frame (groups groups' : gmap string scan)
    (e : event) (key : string) (g : scan) :
  groups !! key = Some g ->
  scan_key e = Ok key ->
  group_step groups e = Ok groups' ->
  exists g',
    groups' !! key = Some g' /\
    template_id g' = template_id g /\ target g' = target g /\
    template_path g' = template_path g /\
    max_requests g' = max_requests g /\
    (e !! "event_type" <> Some (VStr "scan_start") ->
     e !! "event_type" <> Some (VStr "scan_end") ->
     g' = g /\ groups' = groups).
Proof.
  intros Hg Hkey H.
  apply group_step_Ok in H as (key' & g0 & ty & Hkey' & Hg0 & Hty & H).
  assert (key' = key) as -> by congruence.
  assert (g0 = g) as ->.
  { destruct Hg0 as [Hg0|[Hg0 _]]; congruence. }
  destruct H as [(-> & t & _ & ->)|[(-> & t & _ & ->)|(Hs & He & ->)]];
    rewrite lookup_insert_eq; eexists; (split; [done|]);
    do 4 (split; [done|]).
  - intros Hn _. by destruct Hn.
  - intros _ Hn. by destruct Hn.
  - intros _ _. split; [done|]. by apply insert_id.
Qed.

(** ** Further properties of the reader, the grouping loop and main *)


Lemma report_raises (groups : gmap string scan) (out : list output)
    (x : exn) :
  report groups = (out, Raise x) ->
  out = [PrintUniqueScans (size groups);
         PrintCompletedScans (length (completed_scans groups))].
Proof.
  unfold report. cbv zeta.
  destruct (completed_scans groups) as [|g rest]; [discriminate|].
  destruct (scan_statistics (g :: rest)); intros [= <-]; done.
Qed.

(** X2: main prints the statistics, or the no-completed-scans message,
    only in a run that returns normally; a run that ends with an exception
    or with sys.exit has printed neither. *)
Theorem report_printed_only_on_success (fs : string -> option string)
    (default_events_file : string) (argv : list string) (o : output) :
  o ∈ (main fs default_events_file argv).1 ->
  (o = PrintNoCompleted \/
   exists total span mean, o = PrintResults total span mean) ->
  (main fs default_events_file argv).2 = Ok ().
Proof.
  unfold main, parse_events_file. cbv zeta.
  assert (Hno : forall l : list output,
            o ∈ l ->
            (o = PrintNoCompleted \/
             exists total span mean, o = PrintResults total span mean) ->
            Forall (fun o' => match o' with
                              | PrintNoCompleted | PrintResults _ _ _ => False
                              | _ => True
                              end) l -> False).
  { intros l Hin Ho Hall. rewrite Forall_forall in Hall.
    specialize (Hall o Hin).
    destruct Ho as [->|(a & b & c & ->)]; exact Hall. }
  destruct (fs (events_file default_events_file argv)) as [content|].
  2:{ simpl. intros Hin Ho. destruct (Hno _ Hin Ho). by repeat constructor. }
  destruct (load_lines (file_lines content)) as [events|].
  2:{ simpl. intros Hin Ho. destruct (Hno _ Hin Ho). by repeat constructor. }
  destruct (group_events events) as [groups|x].
  2:{ simpl. intros Hin Ho. destruct (Hno _ Hin Ho). by repeat constructor. }
  destruct (report groups) as [out [[]|x]] eqn:Hrep; [done|].
  apply report_raises in Hrep as ->.
  simpl. intros Hin Ho. destruct (Hno _ Hin Ho). by repeat constructor.
Qed.

Lemma group_step_size (groups groups' : gmap string scan) (e : event) :
  group_step groups e = Ok groups' -> (size groups' <= S (size groups))%nat.
Proof.
  intros H. apply group_step_Ok in H as (key & g0 & ty & _ & _ & _ & H).
  destruct H as [(_ & t & _ & ->)|[(_ & t & _ & ->)|(_ & _ & ->)]];
    rewrite map_size_insert; destruct (groups !! key); simpl; lia.
Qed.

Lemma group_loop_size (events : list event) :
  forall groups groups' : gmap string scan,
  group_loop events groups = Ok groups' ->
  (size groups' <= size groups + length events)%nat.
Proof.
  induction events as [|e es IH]; intros groups groups' H; simpl in H.
  - injection H as <-. lia.
  - apply bind_Ok in H as (next & Hstep & H).
    apply group_step_size in Hstep. apply IH in H. simpl. lia.
Qed.

(** X3: the three counts main prints are ordered: there are at most as
    many completed scans as unique scans, and at most as many unique scans
    as events. *)
Theorem counts_are_ordered (events : list event) (groups : gmap string scan) :
  group_events events = Ok groups ->
  (length (completed_scans groups) <= size groups)%nat /\
  (size groups <= length events)%nat.
Proof.
  intros H. split.
  - unfold completed_scans.
    etrans; [apply filter_length_le|].
    by rewrite length_fmap, length_map_to_list.
  - apply group_loop_size in H. by rewrite map_size_empty in H.
Qed.

Lemma group_step_keys (groups groups' : gmap string scan) (e : event)
    (k : string) :
  group_step groups e = Ok groups' ->
  (is_Some (groups' !! k) <-> is_Some (groups !! k) \/ scan_key e = Ok k).
Proof.
  intros H. apply group_step_Ok in H as (key & g0 & ty & Hkey & _ & _ & H).
  assert (exists g, groups' = <[key := g]> groups) as [g ->].
  { destruct H as [(_ & t & _ & ->)|[(_ & t & _ & ->)|(_ & _ & ->)]]; eauto. }
  destruct (decide (key = k)) as [->|Hne].
  - rewrite lookup_insert_eq. split; [by right | eauto].
  - rewrite lookup_insert_ne by done. split; [by left|].
    intros [?|?]; [done | congruence].
Qed.

Lemma group_loop_keys (events : list event) (k : string) :
  forall groups groups' : gmap string scan,
  group_loop events groups = Ok groups' ->
  (is_Some (groups' !! k) <->
   is_Some (groups !! k) \/ exists e, e ∈ events /\ scan_key e = Ok k).
Proof.
  induction events as [|e es IH]; intros groups groups' H; simpl in H.
  - injection H as <-. split; [by left|].
    intros [?|(e & He & _)]; [done | inversion He].
  - apply bind_Ok in H as (next & Hstep & H).
    rewrite (IH _ _ H), (group_step_keys _ _ _ k Hstep). split.
    + intros [[?|?]|(e' & He' & Hk)]; [by left | |].
      * right. exists e. split; [apply elem_of_cons; by left | done].
      * right. exists e'. split; [apply elem_of_cons; by right | done].
    + intros [?|(e' & He' & Hk)]; [by left; left|].
      apply elem_of_cons in He' as [->|He']; [by left; right|].
      right. eauto.
Qed.

(** X4: the keys of the grouping map are exactly the keys of the events
    processed: every event's key has a group, and no other key has. *)
Theorem group_keys_are_event_keys (events : list event)
    (groups : gmap string scan) (key : string) :
  group_events events = Ok groups ->
  (is_Some (groups !! key) <-> exists e, e ∈ events /\ scan_key e = Ok key).
Proof.
  intros H. rewrite (group_loop_keys events key _ _ H), lookup_empty.
  split; [|by right]. intros [[? [=]]|?]; done.
Qed.

Lemma group_loop_other (events : list event) (k : string) :
  (forall e, e ∈ events -> scan_key e <> Ok k) ->
  forall groups groups' : gmap string scan,
  group_loop events groups = Ok groups' -> groups' !! k = groups !! k.
Proof.
  induction events as [|e es IH]; intros Hk groups groups' H; simpl in H.
  - by injection H as <-.
  - apply bind_Ok in H as (next & Hstep & H).
    rewrite (IH (fun e' He' => Hk e' (list_elem_of_further _ _ _ He')) _ _ H).
    apply (group_step_other _ _ _ _ Hstep).
    apply Hk, elem_of_cons. by left.
Qed.

(** The four descriptive fields of two groups agree. *)
Lemma group_step_fields (groups groups' : gmap string scan) (e : event)
    (k : string) (g : scan) :
  group_step groups e = Ok groups' -> groups !! k = Some g ->
  exists g', groups' !! k = Some g' /\
    template_id g' = template_id g /\ target g' = target g /\
    template_path g' = template_path g /\ max_requests g' = max_requests g.
Proof.
  intros H Hg.
  apply group_step_Ok in H as (key & g0 & ty & _ & Hg0 & _ & H).
  destruct (decide (key = k)) as [->|Hne].
  - assert (g0 = g) as -> by (destruct Hg0 as [?|[? _]]; congruence).
    destruct H as [(_ & t & _ & ->)|[(_ & t & _ & ->)|(_ & _ & ->)]];
      rewrite lookup_insert_eq; eexists; split; done.
  - exists g.
    destruct H as [(_ & t & _ & ->)|[(_ & t & _ & ->)|(_ & _ & ->)]];
      rewrite lookup_insert_ne by done; done.
Qed.

Lemma group_loop_fields (events : list event) (k : string) :
  forall (groups groups' : gmap string scan) (g : scan),
  group_loop events groups = Ok groups' -> groups !! k = Some g ->
  exists g', groups' !! k = Some g' /\
    template_id g' = template_id g /\ target g' = target g /\
    template_path g' = template_path g /\ max_requests g' = max_requests g.
Proof.
  induction events as [|e es IH]; intros groups groups' g H Hg; simpl in H.
  - injection H as <-. exists g. done.
  - apply bind_Ok in H as (next & Hstep & H).
    destruct (group_step_fields _ _ _ _ _ Hstep Hg)
      as (g1 & Hg1 & H1 & H2 & H3 & H4).
    destruct (IH _ _ _ H Hg1) as (g' & Hg' & H1' & H2' & H3' & H4').
    exists g'. split; [done|]. repeat split; congruence.
Qed.

(** X5: the first event of a key supplies the group's template_id,
    target, template_path and max_requests, whatever the later events of
    the key carry in these fields. *)
Theorem first_event_supplies_fields (pre post : list event) (e : event)
    (key : string) (groups : gmap string scan) :
  group_events (pre ++ e :: post) = Ok groups ->
  scan_key e = Ok key ->
  (forall e', e' ∈ pre -> scan_key e' <> Ok key) ->
  exists g,
    groups !! key = Some g /\
    e !! "template_id" = Some (template_id g) /\
    e !! "target" = Some (target g) /\
    e !! "template_path" = Some (template_path g) /\
    e !! "max_requests" = Some (max_requests g).
Proof.
  intros H Hkey Hpre.
  apply group_loop_app in H as (mid & Hmid & H). simpl in H.
  apply bind_Ok in H as (next & Hstep & H).
  pose proof (group_step_Ok _ _ _ Hstep)
    as (key' & g0 & ty & Hkey' & Hg0 & _ & Hcases).
  assert (key' = key) as -> by congruence.
  rewrite (group_loop_other pre key Hpre _ _ Hmid), lookup_empty in Hg0.
  destruct Hg0 as [[=]|[_ Hnew]].
  apply new_scan_Ok in Hnew as (_ & _ & Htid & Htgt & Hpath & Hreqs).
  assert (exists g1, next !! key = Some g1 /\
            template_id g1 = template_id g0 /\ target g1 = target g0 /\
            template_path g1 = template_path g0 /\
            max_requests g1 = max_requests g0)
    as (g1 & Hg1 & H1 & H2 & H3 & H4).
  { destruct Hcases as [(_ & t & _ & ->)|[(_ & t & _ & ->)|(_ & _ & ->)]];
      rewrite lookup_insert_eq; eexists; split; done. }
  destruct (group_loop_fields post key _ _ _ H Hg1)
    as (g & Hg & H1' & H2' & H3' & H4').
  exists g. split; [done|]. repeat split; congruence.
Qed.

(** X6: the grouping loop touches no group whose key differs from the
    keys of the events it processes. *)
Theorem other_groups_untouched (events : list event) (key : string)
    (groups groups' : gmap string scan) :
  (forall e, e ∈ events -> scan_key e <> Ok key) ->
  group_loop events groups = Ok groups' ->
  groups' !! key = groups !! key.
Proof. intros Hk H. exact (group_loop_other events key Hk _ _ H). Qed.

Lemma group_loop_time_source (b : boundary) (events : list event)
    (k : string) :
  forall (groups groups' : gmap string scan) (g : scan) (t : Z),
  group_loop events groups = Ok groups' -> groups' !! k = Some g ->
  boundary_time b g = Some t ->
  groups !! k ≫= boundary_time b = Some t \/
  exists e, e ∈ events /\ is_boundary b e k /\ parse_time e = Ok t.
Proof.
  induction events as [|e es IH]; intros groups groups' g t H Hg Ht;
    simpl in H.
  - injection H as <-. left. by rewrite Hg.
  - apply bind_Ok in H as (next & Hstep & H).
    destruct (IH _ _ _ _ H Hg Ht) as [Hnext|(e' & He' & Hb & Hp)].
    + destruct (next !! k) as [g1|] eqn:Hg1; [|discriminate].
      simpl in Hnext.
      destruct (group_step_time b _ _ _ _ _ Hstep Hg1)
        as [(Hb & t' & Hp & Ht')|(_ & Hsame)].
      * right. exists e. split; [apply elem_of_cons; by left|].
        split; [done | congruence].
      * left. congruence.
    + right. exists e'. split; [apply elem_of_cons; by right | done].
Qed.

(** X7: an instant stored in a group is never invented: a start_time is
    the parsed timestamp of some scan_start event of the group's key, and
    an end_time that of some scan_end event of the key. *)
Theorem instants_come_from_events (events : list event)
    (groups : gmap string scan) (key : string) (g : scan) :
  group_events events = Ok groups ->
  groups !! key = Some g ->
  (forall t, start_time g = Some t ->
     exists e, e ∈ events /\ is_start e key /\ parse_time e = Ok t) /\
  (forall t, end_time g = Some t ->
     exists e, e ∈ events /\ is_end e key /\ parse_time e = Ok t).
Proof.
  intros H Hg. split; intros t Ht.
  - destruct (group_loop_time_source AtStart events key _ _ _ _ H Hg Ht)
      as [Hinit|Hex]; [by rewrite lookup_empty in Hinit | exact Hex].
  - destruct (group_loop_time_source AtEnd events key _ _ _ _ H Hg Ht)
      as [Hinit|Hex]; [by rewrite lookup_empty in Hinit | exact Hex].
Qed.

Lemma scan_key_Ok (e : event) (k : string) :
  scan_key e = Ok k ->
  exists tid tgt, e !! "template_id" = Some tid /\ e !! "target" = Some tgt /\
                  k = str tid +:+ "_" +:+ str tgt.
Proof.
  unfold scan_key. intros H.
  apply bind_Ok in H as (tid & Htid & H).
  apply bind_Ok in H as (tgt & Htgt & H).
  apply subscript_Ok in Htid, Htgt. injection H as <-. eauto.
Qed.

Lemma group_loop_reads (events : list event) :
  forall groups groups' : gmap string scan,
  group_loop events groups = Ok groups' ->
  forall e, e ∈ events ->
    is_Some (e !! "template_id") /\ is_Some (e !! "target") /\
    exists ty, e !! "event_type" = Some ty /\
      (ty = VStr "scan_start" \/ ty = VStr "scan_end" ->
       exists t, parse_time e = Ok t).
Proof.
  induction events as [|e0 es IH]; intros groups groups' H e He; simpl in H.
  - inversion He.
  - apply bind_Ok in H as (next & Hstep & H).
    apply elem_of_cons in He as [->|He]; [|exact (IH _ _ H e He)].
    apply group_step_Ok in Hstep as (key & g0 & ty & Hkey & _ & Hty & Hc).
    apply scan_key_Ok in Hkey as (tid & tgt & Htid & Htgt & _).
    split; [eauto|]. split; [eauto|]. exists ty. split; [done|].
    intros Hb.
    destruct Hc as [(_ & t & Ht & _)|[(_ & t & Ht & _)|(Hs & He' & _)]];
      [eauto | eauto | by destruct Hb].
Qed.

(** X8: main returns normally on a parsed log only if every event carries
    template_id, target and event_type, and every scan_start and scan_end
    event a time that parses; otherwise the run ends with an exception. *)
Theorem normal_return_requires_fields (fs : string -> option string)
    (default_events_file : string) (argv : list string) (content : string)
    (events : list event) :
  fs (events_file default_events_file argv) = Some content ->
  load_lines (file_lines content) = Some events ->
  (main fs default_events_file argv).2 = Ok () ->
  forall e, e ∈ events ->
    is_Some (e !! "template_id") /\ is_Some (e !! "target") /\
    exists ty, e !! "event_type" = Some ty /\
      (ty = VStr "scan_start" \/ ty = VStr "scan_end" ->
       exists t, parse_time e = Ok t).
Proof.
  intros Hfs Hload Hrun.
  rewrite (main_parsed fs _ _ content events Hfs Hload) in Hrun.
  destruct (group_events events) as [groups|x] eqn:Hgroups; [|discriminate].
  exact (group_loop_reads events _ _ Hgroups).
Qed.

Lemma add_value_get_inv (e : event) (total n : Z) :
  add_value total (default (VInt 1) (e !! "max_requests")) = Ok n ->
  numeric_or_absent e.
Proof.
  unfold add_value, numeric_or_absent. intros H v Hv. rewrite Hv in H.
  simpl in H. destruct (int_of_value v); [eauto | discriminate].
Qed.

Lemma collect_inv (events : list event) :
  forall (timestamps : list Z) (total : Z) (r : list Z * Z),
  collect events timestamps total = Ok r ->
  Forall (fun e => exists t, parse_time e = Ok t) events /\
  Forall numeric_or_absent events.
Proof.
  induction events as [|e es IH]; intros timestamps total r H.
  - split; constructor.
  - cbn [collect] in H. apply bind_Ok in H as (t & Ht & H).
    apply bind_Ok in H as (n & Hn & H).
    destruct (IH _ _ _ H) as [Hp Hnum]. split; constructor; eauto.
    exact (add_value_get_inv _ _ _ Hn).
Qed.

Lemma flat_mean_Ok_inv (events : list event) (r : Q) :
  calculate_mean_reqs_per_sec events = Ok r ->
  Forall (fun e => exists t, parse_time e = Ok t) events /\
  Forall numeric_or_absent events.
Proof.
  destruct events as [|e es]; [split; constructor|].
  unfold calculate_mean_reqs_per_sec. intros H.
  apply bind_Ok in H as (res & Hrun & _). exact (collect_inv _ _ _ _ Hrun).
Qed.


(** One iteration, as an equivalence: it succeeds exactly when the event
    has a key, the key's group is stored or can be built from the event,
    and the event updates that group. *)
Lemma group_step_spec (groups groups' : gmap string scan) (e : event) :
  group_step groups e = Ok groups' <->
  exists key g0 g,
    scan_key e = Ok key /\
    (groups !! key = Some g0 \/
     (groups !! key = None /\ new_scan e = Ok g0)) /\
    updated e g0 g /\ groups' = <[key := g]> groups.
Proof.
  split.
  - intros H. apply group_step_Ok in H as (key & g0 & ty & Hkey & Hg0 & Hty & H).
    assert (exists g, updated e g0 g /\ groups' = <[key := g]> groups)
      as (g & Hup & ->).
    { destruct H as [(Hs & t & Ht & ->)|[(He & t & Ht & ->)|(Hs & He & ->)]];
        eexists; (split; [|reflexivity]); exists ty; (split; [done|]);
        eauto 10. }
    exists key, g0, g. done.
  - intros (key & g0 & g & Hkey & Hg0 & (ty & Hty & Hup) & ->).
    unfold group_step. rewrite Hkey. cbn [mbind result_bind].
    assert (Hmid :
      (match groups !! key with
       | Some _ => Ok groups
       | None => g1 ← new_scan e; Ok (<[key := g1]> groups)
       end) = Ok (<[key := g0]> groups)).
    { destruct Hg0 as [Hg0|[Hg0 Hnew]]; rewrite Hg0.
      - by rewrite insert_id.
      - by rewrite Hnew. }
    rewrite Hmid. cbn [mbind result_bind].
    unfold subscript at 1. rewrite Hty. cbn [mbind result_bind].
    destruct Hup as [(-> & t & Ht & ->)|[(-> & t & Ht & ->)|(Hs & He & ->)]].
    + rewrite decide_True by done. rewrite Ht. cbn [mbind result_bind].
      by rewrite alter_insert_eq.
    + rewrite decide_False by done. rewrite decide_True by done.
      rewrite Ht. cbn [mbind result_bind]. by rewrite alter_insert_eq.
    + by rewrite !decide_False by done.
Qed.

Lemma updated_again (e : event) (g0 g : scan) :
  updated e g0 g -> updated e g g.
Proof.
  intros (ty & Hty & H). exists ty. split; [done|].
  destruct H as [(-> & t & Ht & ->)|[(-> & t & Ht & ->)|(Hs & He & ->)]].
  - left. split; [done|]. exists t. done.
  - right. left. split; [done|]. exists t. done.
  - right. right. done.
Qed.

(** X10: processing the same event a second time changes nothing: a line
    duplicated in the log leaves the grouping as it is. *)
Theorem repeated_event_changes_nothing (groups groups' : gmap string scan)
    (e : event) :
  group_step groups e = Ok groups' ->
  group_step groups' e = Ok groups'.
Proof.
  intros H. apply group_step_spec in H as (key & g0 & g & Hkey & _ & Hup & ->).
  apply group_step_spec. exists key, g, g. split; [done|].
  split; [left; apply lookup_insert_eq|].
  split; [exact (updated_again _ _ _ Hup)|].
  by rewrite insert_insert_eq.
Qed.

(** X11: two consecutive events of different keys can be swapped: the
    other order succeeds as well and gives the same map. *)
Theorem events_of_different_keys_commute (groups mid groups' : gmap string scan)
    (e1 e2 : event) :
  group_step groups e1 = Ok mid ->
  group_step mid e2 = Ok groups' ->
  scan_key e1 <> scan_key e2 ->
  exists mid', group_step groups e2 = Ok mid' /\
               group_step mid' e1 = Ok groups'.
Proof.
  intros H1 H2 Hne.
  apply group_step_spec in H1 as (k1 & g1 & h1 & Hk1 & Hg1 & Hup1 & ->).
  apply group_step_spec in H2 as (k2 & g2 & h2 & Hk2 & Hg2 & Hup2 & ->).
  assert (Hk : k1 <> k2) by congruence.
  rewrite lookup_insert_ne in Hg2 by done.
  exists (<[k2 := h2]> groups). split.
  - apply group_step_spec. exists k2, g2, h2. done.
  - apply group_step_spec. exists k1, g1, h1. split; [done|].
    split; [by rewrite lookup_insert_ne|]. split; [done|].
    by apply insert_insert_ne.
Qed.



(** The least and greatest timestamp of a well-formed, non-empty list. *)
Lemma event_time_bounds_exist (events : list event) :
  events <> [] ->
  Forall (fun e => exists t, parse_time e = Ok t) events ->
  Forall numeric_or_absent events ->
  exists lo hi, least (event_time events) lo /\
                greatest (event_time events) hi /\ lo <= hi.
Proof.
  intros Hne Hparse Hnum.
  destruct (collect_Ok events Hparse Hnum [] 0) as (ts & _ & Hlen & Hmem).
  assert (Hts : ts <> []).
  { intros ->. destruct events; [done | discriminate]. }
  destruct (py_min_defined ts Hts) as [lo Hlo].
  destruct (py_max_defined ts Hts) as [hi Hhi].
  apply py_min_least in Hlo. apply py_max_greatest in Hhi.
  exists lo, hi. split; [exact (least_iff _ _ _ Hmem Hlo)|].
  split; [exact (greatest_iff _ _ _ Hmem Hhi)|].
  destruct Hlo as [Hin _]. destruct Hhi as [_ Hle]. by apply Hle.
Qed.


Lemma Qdiv_total_seconds_nonneg (n d : Z) :
  0 <= n -> 0 < d -> (0 <= inject_Z n / total_seconds d)%Q.
Proof.
  intros Hn Hd. apply Qle_shift_div_l.
  - unfold Qlt, total_seconds. simpl. lia.
  - rewrite Qmult_0_l. unfold Qle. simpl. lia.
Qed.

Lemma inject_Z_nonneg (n : Z) : 0 <= n -> (0 <= inject_Z n)%Q.
Proof. intros Hn. unfold Qle. simpl. lia. Qed.

(** X13: the flat mean is never negative when the request counts add up
    to a non-negative total. *)
Theorem flat_mean_nonnegative (events : list event) (r : Q) :
  calculate_mean_reqs_per_sec events = Ok r ->
  0 <= flat_requests events ->
  (0 <= r)%Q.
Proof.
  intros H Htot.
  destruct (flat_mean_Ok_inv events r H) as [Hparse Hnum].
  destruct (le_lt_dec 2 (length events)) as [Hlen|Hlen].
  - assert (Hne : events <> []) by (intros ->; simpl in Hlen; lia).
    destruct (event_time_bounds_exist events Hne Hparse Hnum)
      as (lo & hi & Hlo & Hhi & Hle).
    rewrite (flat_mean_value events lo hi Hlen Hparse Hnum Hlo Hhi) in H.
    injection H as <-.
    destruct (Z.eqb_spec (hi - lo) 0).
    + by apply inject_Z_nonneg.
    + apply Qdiv_total_seconds_nonneg; [done | lia].
  - destruct (collect_Ok events Hparse Hnum [] 0) as (ts & Hrun & Hlts & _).
    destruct events as [|e es]; [by injection H as <-|].
    unfold calculate_mean_reqs_per_sec in H. rewrite Hrun in H.
    simpl app in H. cbn [mbind result_bind] in H.
    destruct (Nat.ltb_spec (length ts) 2) as [_|Hge]; [|lia].
    by injection H as <-.
Qed.

(** X14: the time span main reports is never negative, and the mean it
    reports is never negative when the total of the budgets is not. *)
Theorem reported_span_and_mean_nonnegative (scans : list scan)
    (st : statistics) :
  scan_statistics scans = Ok st ->
  (0 <= time_span st)%Q /\
  (0 <= total_requests st -> (0 <= mean_reqs_per_sec st)%Q).
Proof.
  unfold scan_statistics. intros H.
  apply bind_Ok in H as (total & _ & H).
  apply bind_Ok in H as (ts & _ & H).
  apply bind_Ok in H as (first & Hfirst & H).
  apply bind_Ok in H as (last & Hlast & H).
  apply bind_Ok in H as (ds & _ & H).
  apply bind_Ok in H as (lo & _ & H).
  apply bind_Ok in H as (hi & _ & H).
  injection H as <-. cbn [time_span total_requests mean_reqs_per_sec].
  apply py_min_least in Hfirst as [Hin _].
  apply py_max_greatest in Hlast as [_ Hle].
  specialize (Hle _ Hin).
  split.
  - unfold Qle, total_seconds. simpl. lia.
  - intros Htot. rewrite Qle_bool_total_seconds.
    destruct (Z.leb_spec (last - first) 0); simpl.
    + by apply inject_Z_nonneg.
    + by apply Qdiv_total_seconds_nonneg.
Qed.

(** ** Which exceptions can end a run *)

Lemma bind_Raise {A B : Type} (r : result A) (k : A -> result B) (x : exn) :
  r ≫= k = Raise x -> r = Raise x \/ exists a, r = Ok a /\ k a = Raise x.
Proof. destruct r as [a|y]; simpl; [eauto | intros [= ->]; by left]. Qed.

Lemma group_step_Raise (groups : gmap string scan) (e : event) (x : exn) :
  group_step groups e = Raise x -> is_exit x = false.
Proof.
  unfold group_step, scan_key, new_scan, parse_time, subscript. intros H.
  repeat (case_match; simpl in H; try discriminate);
    by injection H as <-.
Qed.

Lemma group_loop_Raise (events : list event) (x : exn) :
  forall groups : gmap string scan,
  group_loop events groups = Raise x -> is_exit x = false.
Proof.
  induction events as [|e es IH]; intros groups H; simpl in H; [discriminate|].
  apply bind_Raise in H as [H|(next & _ & H)].
  - exact (group_step_Raise _ _ _ H).
  - exact (IH _ H).
Qed.

Lemma sum_values_Raise (vs : list value) (x : exn) :
  forall acc, sum_values acc vs = Raise x -> is_exit x = false.
Proof.
  induction vs as [|v vs IH]; intros acc H; simpl in H; [discriminate|].
  apply bind_Raise in H as [H|(acc' & _ & H)]; [|exact (IH _ H)].
  unfold add_value in H. destruct (int_of_value v); [discriminate|].
  by injection H as <-.
Qed.

Lemma scan_times_Raise (g : scan) (x : exn) :
  scan_times g = Raise x -> is_exit x = false.
Proof.
  unfold scan_times. intros H.
  repeat (case_match; try discriminate); by injection H as <-.
Qed.

Lemma all_times_of_Raise (scans : list scan) (x : exn) :
  all_times_of scans = Raise x -> is_exit x = false.
Proof.
  induction scans as [|g gs IH]; intros H; simpl in H; [discriminate|].
  apply bind_Raise in H as [H|([s e] & _ & H)];
    [exact (scan_times_Raise _ _ H)|].
  apply bind_Raise in H as [H|(rest & _ & H)]; [by apply IH | discriminate].
Qed.

Lemma durations_of_Raise (scans : list scan) (x : exn) :
  durations_of scans = Raise x -> is_exit x = false.
Proof.
  induction scans as [|g gs IH]; intros H; simpl in H; [discriminate|].
  apply bind_Raise in H as [H|([s e] & _ & H)];
    [exact (scan_times_Raise _ _ H)|].
  apply bind_Raise in H as [H|(rest & _ & H)]; [by apply IH | discriminate].
Qed.

Lemma scan_statistics_Raise (scans : list scan) (x : exn) :
  scan_statistics scans = Raise x -> is_exit x = false.
Proof.
  unfold scan_statistics. intros H.
  apply bind_Raise in H as [H|(total & _ & H)];
    [exact (sum_values_Raise _ _ _ H)|].
  apply bind_Raise in H as [H|(ts & _ & H)];
    [exact (all_times_of_Raise _ _ H)|].
  apply bind_Raise in H as [H|(first & _ & H)].
  { destruct ts; [by injection H as <- | discriminate]. }
  apply bind_Raise in H as [H|(last & _ & H)].
  { destruct ts; [by injection H as <- | discriminate]. }
  apply bind_Raise in H as [H|(ds & _ & H)];
    [exact (durations_of_Raise _ _ H)|].
  apply bind_Raise in H as [H|(lo & _ & H)].
  { destruct ds; [by injection H as <- | discriminate]. }
  apply bind_Raise in H as [H|(hi & _ & H)]; [|discriminate].
  destruct ds; [by injection H as <- | discriminate].
Qed.

(** A run of main either returns, having printed a line of the report, or
    ends with an exception, having printed none; the exception is the
    [SystemExit] of [sys.exit(1)] or is not a [SystemExit] at all. *)
Lemma main_cases (fs : string -> option string)
    (default_events_file : string) (argv : list string) :
  let run := main fs default_events_file argv in
  (run.2 = Ok () /\ exists o, o ∈ run.1 /\ is_report_line o = true) \/
  (exists x, run.2 = Raise x /\ (x = SystemExit 1 \/ is_exit x = false) /\
             Forall (fun o => is_report_line o = false) run.1).
Proof.
  unfold main, parse_events_file. cbv zeta.
  destruct (fs (events_file default_events_file argv)) as [content|].
  2:{ right. eexists. split; [done|]. split; [by left|]. by repeat constructor. }
  destruct (load_lines (file_lines content)) as [events|].
  2:{ right. eexists. split; [done|]. split; [by left|]. by repeat constructor. }
  destruct (group_events events) as [groups|x] eqn:Hgroups.
  2:{ right. exists x. split; [done|].
      split; [right; exact (group_loop_Raise _ _ _ Hgroups)|].
      by repeat constructor. }
  unfold report. cbv zeta.
  destruct (completed_scans groups) as [|g rest].
  { left. split; [done|]. exists PrintNoCompleted. split; [|done].
    simpl. do 5 apply list_elem_of_further. apply list_elem_of_here. }
  destruct (scan_statistics (g :: rest)) as [st|x] eqn:Hst.
  - left. split; [done|]. eexists (PrintResults _ _ _). split; [|done].
    simpl. do 5 apply list_elem_of_further. apply list_elem_of_here.
  - right. exists x. split; [done|].
    split; [right; exact (scan_statistics_Raise _ _ Hst)|].
    by repeat constructor.
Qed.

(** X15: main exits with status 0 exactly when it has printed the
    statistics or the no-completed-scans message. *)
Theorem exit_zero_iff_report_printed (fs : string -> option string)
    (default_events_file : string) (argv : list string) :
  exit_status (main fs default_events_file argv).2 = 0 <->
  exists o, o ∈ (main fs default_events_file argv).1 /\
            is_report_line o = true.
Proof.
  destruct (main_cases fs default_events_file argv)
    as [[Hok Hline]|(x & Hx & Hkind & Hnone)]; rewrite ?Hok, ?Hx.
  - split; [by intros _ | done].
  - split.
    + destruct Hkind as [->|Hkind]; [discriminate|].
      by destruct x.
    + intros (o & Ho & Hline). rewrite Forall_forall in Hnone.
      rewrite (Hnone o Ho) in Hline. discriminate.
Qed.

(** X16: main exits with status 0 or 1, never with another status. *)
Theorem exit_status_is_0_or_1 (fs : string -> option string)
    (default_events_file : string) (argv : list string) :
  exit_status (main fs default_events_file argv).2 = 0 \/
  exit_status (main fs default_events_file argv).2 = 1.
Proof.
  destruct (main_cases fs default_events_file argv)
    as [[Hok _]|(x & Hx & Hkind & _)]; rewrite ?Hok, ?Hx.
  - by left.
  - right. destruct Hkind as [->|Hkind]; [done | by destruct x].
Qed.

(** ** Timestamps with and without the letter Z *)

Lemma string_app_assoc (s1 s2 s3 : string) :
  (s1 +:+ s2) +:+ s3 = s1 +:+ (s2 +:+ s3).
Proof.
  induction s1 as [|c s1 IH]; [reflexivity|].
  change (String c ((s1 +:+ s2) +:+ s3) = String c (s1 +:+ (s2 +:+ s3))).
  by rewrite IH.
Qed.

Lemma replace_app (old : ascii) (new s1 s2 : string) :
  replace old new (s1 +:+ s2) = replace old new s1 +:+ replace old new s2.
Proof.
  induction s1 as [|c s1 IH]; [reflexivity|].
  change (replace old new (String c (s1 +:+ s2))
          = replace old new (String c s1) +:+ replace old new s2).
  cbn [replace]. destruct (Ascii.eqb c old); rewrite IH.
  - by rewrite string_app_assoc.
  - reflexivity.
Qed.

Lemma replace_absent (old : ascii) (new s : string) :
  ~ In old (list_ascii_of_string s) -> replace old new s = s.
Proof.
  induction s as [|c s IH]; simpl; [done|]. intros Hin.
  destruct (Ascii.eqb_spec c old) as [->|_]; [destruct Hin; by left|].
  rewrite IH; [done|]. intros H. apply Hin. by right.
Qed.

(** X17: a trailing Z is read as the offset +00:00: an event whose time
    ends in Z is parsed exactly as the event whose time has +00:00 in its
    place. *)
Theorem zulu_suffix_is_utc_offset (e1 e2 : event) (s : string) :
  e1 !! "time" = Some (VStr (s +:+ "Z")) ->
  e2 !! "time" = Some (VStr (s +:+ "+00:00")) ->
  parse_time e1 = parse_time e2.
Proof.
  intros H1 H2. unfold parse_time, subscript. rewrite H1, H2.
  cbn [mbind result_bind]. by rewrite !replace_app.
Qed.

(** X18: a time that holds no capital Z, such as one with a numeric
    offset, is handed to fromisoformat as it is. *)
Theorem time_without_zulu_parsed_as_is (e : event) (s : string) :
  e !! "time" = Some (VStr s) ->
  ~ In "Z"%char (list_ascii_of_string s) ->
  parse_time e = match fromisoformat s with
                 | Some t => Ok t
                 | None => Raise ValueError
                 end.
Proof.
  intros He Hz. unfold parse_time, subscript. rewrite He.
  cbn [mbind result_bind]. by rewrite replace_absent.
Qed.

(** ** Durations of the completed scans *)

Lemma foldl_Qmax_spec (xs : list Q) (x : Q) :
  (x <= foldl Qmax x xs)%Q /\
  (foldl Qmax x xs = x \/ foldl Qmax x xs ∈ xs).
Proof.
  revert x. induction xs as [|y ys IH]; intros x; simpl.
  - split; [apply Qle_refl | by left].
  - destruct (IH (Qmax x y)) as [Hle Hin]. split.
    + eapply Qle_trans; [apply Q.le_max_l | exact Hle].
    + destruct Hin as [Heq|Hin]; [|right; apply elem_of_cons; by right].
      rewrite Heq. unfold Qmax, GenericMinMax.gmax.
      destruct (x ?= y)%Q; [by left | right; apply elem_of_cons; by left
                           | by left].
Qed.

Lemma foldl_Qmin_le (xs : list Q) (x : Q) : (foldl Qmin x xs <= x)%Q.
Proof.
  revert x. induction xs as [|y ys IH]; intros x; simpl.
  - apply Qle_refl.
  - eapply Qle_trans; [apply IH | apply Q.le_min_l].
Qed.

Lemma total_seconds_mono (a b : Z) :
  a <= b -> (total_seconds a <= total_seconds b)%Q.
Proof. intros H. unfold Qle, total_seconds. simpl. lia. Qed.

Lemma durations_of_elem (scans : list scan) :
  forall (ds : list Q) (ts : list Z),
  durations_of scans = Ok ds -> all_times_of scans = Ok ts ->
  forall d, d ∈ ds ->
    exists s e, s ∈ ts /\ e ∈ ts /\ d = total_seconds (e - s).
Proof.
  induction scans as [|g gs IH]; intros ds ts Hds Hts d Hd; simpl in *.
  - injection Hds as <-. inversion Hd.
  - apply bind_Ok in Hds as ([s e] & Hse & Hds).
    rewrite Hse in Hts. cbn [mbind result_bind] in Hts.
    apply bind_Ok in Hds as (ds' & Hds' & Hds). injection Hds as <-.
    apply bind_Ok in Hts as (ts' & Hts' & Hts). injection Hts as <-.
    apply elem_of_cons in Hd as [->|Hd].
    + exists s, e. split; [apply elem_of_cons; by left|].
      split; [|done]. apply elem_of_cons. right. apply elem_of_cons. by left.
    + destruct (IH _ _ Hds' Hts' d Hd) as (s' & e' & Hs' & He' & ->).
      exists s', e'.
      split; [by do 2 (apply elem_of_cons; right)|].
      split; [by do 2 (apply elem_of_cons; right) | done].
Qed.

(** X19: of the durations main reports, the shortest is at most the
    longest, and the longest is at most the overall time span. *)
Theorem durations_within_span (scans : list scan) (st : statistics) :
  scan_statistics scans = Ok st ->
  (shortest_scan st <= longest_scan st)%Q /\
  (longest_scan st <= time_span st)%Q.
Proof.
  unfold scan_statistics. intros H.
  apply bind_Ok in H as (total & _ & H).
  apply bind_Ok in H as (ts & Hts & H).
  apply bind_Ok in H as (first & Hfirst & H).
  apply bind_Ok in H as (last & Hlast & H).
  apply bind_Ok in H as (ds & Hds & H).
  apply bind_Ok in H as (lo & Hlo & H).
  apply bind_Ok in H as (hi & Hhi & H).
  injection H as <-. cbn [shortest_scan longest_scan time_span].
  destruct ds as [|d ds']; [discriminate|].
  injection Hlo as <-. injection Hhi as <-.
  destruct (foldl_Qmax_spec ds' d) as [Hge Hin].
  split.
  - eapply Qle_trans; [apply foldl_Qmin_le | exact Hge].
  - assert (Hmem : foldl Qmax d ds' ∈ d :: ds').
    { apply elem_of_cons. destruct Hin; auto. }
    destruct (durations_of_elem _ _ _ Hds Hts _ Hmem)
      as (s & e & Hs & He & ->).
    apply py_min_least in Hfirst as [_ Hlow].
    apply py_max_greatest in Hlast as [_ Hhigh].
    specialize (Hlow s Hs). specialize (Hhigh e He).
    apply total_seconds_mono. lia.
Qed.

End Program.

(** ** The properties on the sample logs *)

Section Samples.

Lemma sample_parses (events : list event) (ts : list Z) (total : Z) :
  collect iso_instant events [] 0 = Ok (ts, total) ->
  Forall (fun e => exists t, parse_time iso_instant e = Ok t) events.
Proof.
  generalize (@nil Z) 0. induction events as [|e es IH]; intros acc n H.
  - constructor.
  - cbn [collect] in H. apply bind_Ok in H as (t & Ht & H).
    apply bind_Ok in H as (n' & _ & H).
    constructor; [eauto | exact (IH _ _ H)].
Qed.

Lemma mk_event_numeric (time ty tid tgt : string) (n : Z) :
  numeric_or_absent (mk_event time ty tid tgt n).
Proof.
  intros v Hv. vm_compute in Hv. injection Hv as <-. by eexists.
Qed.

Lemma not_start_end_a : ~ is_start end_a key_a.
Proof. intros [_ H]. vm_compute in H. discriminate. Qed.

Lemma not_end_start_a : ~ is_end start_a key_a.
Proof. intros [_ H]. vm_compute in H. discriminate. Qed.


(** Scenario 1 of the specification, through [main]: one start and end
    pair ten seconds apart with a budget of 50 gives one completed scan,
    a span of 10 s and a mean of 5 requests per second. *)
Example scenario_single_pair :
  main iso_instant (loads_table sample_lines)
       (one_file "events.jsonl" log_complete) "public/events.jsonl"
       ["calculate_mean_reqs_per_sec.py"; "events.jsonl"]
  = ([PrintAnalyzing "events.jsonl"; PrintRule; PrintTotalEvents 2;
      PrintUniqueScans 1; PrintCompletedScans 1;
      PrintResults 50 (10000000 # 1000000) (50 / (10000000 # 1000000))%Q;
      PrintAdditional (0 + (10000000 # 1000000) / 1)%Q
                      (10000000 # 1000000) (10000000 # 1000000)],
     Ok ()).
Proof. vm_compute. reflexivity. Qed.

(** Scenario 2 of the specification: two completed scans, 150 requests
    in total over a span of 15 s. *)
Example scenario_two_overlapping_scans :
  exists groups avg shortest longest,
    group_events iso_instant scenario_two_groups = Ok groups /\
    report groups
    = ([PrintUniqueScans 2; PrintCompletedScans 2;
        PrintResults 150 (15000000 # 1000000)
                     (150 / (15000000 # 1000000))%Q;
        PrintAdditional avg shortest longest],
       Ok ()) /\
    (150 / (15000000 # 1000000) == 10)%Q.
Proof.
  eexists _, _, _, _. split; [vm_compute; reflexivity|].
  split; [vm_compute; reflexivity|]. reflexivity.
Qed.



(** C2: two events with different template ids and different targets
    receive the same key and are merged into one group, which keeps the
    fields of the first and the start time of the second. *)
Theorem scan_key_collision :
  start_detect !! "template_id" <> start_detect_dev !! "template_id" /\
  start_detect !! "target" <> start_detect_dev !! "target" /\
  scan_key start_detect = Ok "detect_dev_api.example.com" /\
  scan_key start_detect_dev = Ok "detect_dev_api.example.com" /\
  group_events iso_instant [start_detect; start_detect_dev]
  = Ok {[ "detect_dev_api.example.com" :=
            Scan (VStr "detect") (VStr "dev_api.example.com")
                 (VStr "http/sample.yaml") (VInt 10)
                 (Some (midnight + 1000000)) None ]}.
Proof.
  split; [vm_compute; discriminate|]. split; [vm_compute; discriminate|].
  split; [vm_compute; reflexivity|]. split; vm_compute; reflexivity.
Qed.

(** Events with equal template_id and target do get the same key. *)
Lemma scan_key_deterministic (e1 e2 : event) :
  e1 !! "template_id" = e2 !! "template_id" ->
  e1 !! "target" = e2 !! "target" ->
  scan_key e1 = scan_key e2.
Proof. unfold scan_key, subscript. by intros -> ->. Qed.

Lemma last_boundary_event_wins_witness :
  (exists g t,
     ({[ key_a := group_a (Some (midnight + 5000000))
                          (Some (midnight + 10000000)) ]}
      : gmap string scan) !! key_a = Some g /\
     parse_time iso_instant restart_a = Ok t /\ start_time g = Some t) /\
  (exists g t,
     ({[ key_a := group_a (Some (midnight + 5000000))
                          (Some (midnight + 10000000)) ]}
      : gmap string scan) !! key_a = Some g /\
     parse_time iso_instant end_a = Ok t /\ end_time g = Some t).
Proof.
  split.
  - apply (last_boundary_event_wins iso_instant [start_a] [end_a] restart_a).
    + vm_compute. reflexivity.
    + split; vm_compute; reflexivity.
    + intros e' He'. apply list_elem_of_singleton in He' as ->.
      exact not_start_end_a.
  - apply (last_boundary_event_wins iso_instant [start_a; restart_a] []
             end_a).
    + vm_compute. reflexivity.
    + split; vm_compute; reflexivity.
    + intros e' He'. inversion He'.
Defined.

(** C5, refuted as stated: with two scan_start events of one key, five
    seconds apart, the group's start_time is the timestamp of the second
    one, not of the first-seen one. *)
Lemma first_seen_start_is_overwritten :
  is_start start_a key_a /\ is_start restart_a key_a /\
  parse_time iso_instant start_a = Ok midnight /\
  group_events iso_instant [start_a; restart_a; end_a]
  = Ok {[ key_a := group_a (Some (midnight + 5000000))
                           (Some (midnight + 10000000)) ]} /\
  start_time (group_a (Some (midnight + 5000000))
                      (Some (midnight + 10000000))) <> Some midnight.
Proof.
  split; [split; vm_compute; reflexivity|].
  split; [split; vm_compute; reflexivity|].
  split; [vm_compute; reflexivity|].
  split; [vm_compute; reflexivity|].
  vm_compute. discriminate.
Qed.

Lemma first_boundary_event_wins_if_only_witness :
  (exists g t,
     ({[ key_a := group_a (Some midnight) (Some (midnight + 10000000)) ]}
      : gmap string scan) !! key_a = Some g /\
     parse_time iso_instant start_a = Ok t /\ start_time g = Some t) /\
  (exists g t,
     ({[ key_a := group_a (Some midnight) (Some (midnight + 10000000)) ]}
      : gmap string scan) !! key_a = Some g /\
     parse_time iso_instant end_a = Ok t /\ end_time g = Some t).
Proof.
  split.
  - apply (first_boundary_event_wins_if_only iso_instant [] [end_a] start_a).
    + vm_compute. reflexivity.
    + split; vm_compute; reflexivity.
    + intros e' He'. inversion He'.
    + intros e' He'. apply list_elem_of_singleton in He' as ->.
      exact not_start_end_a.
  - apply (first_boundary_event_wins_if_only iso_instant [start_a] []
             end_a).
    + vm_compute. reflexivity.
    + split; vm_compute; reflexivity.
    + intros e' He'. apply list_elem_of_singleton in He' as ->.
      exact not_end_start_a.
    + intros e' He'. inversion He'.
Defined.

Lemma completed_iff_start_and_end_witness :
  group_a (Some midnight) (Some (midnight + 10000000))
  ∈ completed_scans
      {[ key_a := group_a (Some midnight) (Some (midnight + 10000000)) ]}
  <->
  (exists e, e ∈ [start_a; end_a] /\ is_start e key_a) /\
  (exists e, e ∈ [start_a; end_a] /\ is_end e key_a).
Proof.
  apply (completed_iff_start_and_end iso_instant).
  - vm_compute. reflexivity.
  - apply lookup_singleton_eq.
Defined.



(** C8, refuted as stated: a single event without a [time] field makes
    the flat mean raise [KeyError], and a single event whose [time] is
    not a timestamp makes it raise [ValueError]; neither returns 0.0. *)
Lemma single_event_raises :
  length [untimed_a] = 1%nat /\
  calculate_mean_reqs_per_sec iso_instant [untimed_a]
  = Raise (KeyError "time") /\
  length [mistimed_a] = 1%nat /\
  calculate_mean_reqs_per_sec iso_instant [mistimed_a] = Raise ValueError /\
  calculate_mean_reqs_per_sec iso_instant [untimed_a] <> Ok 0%Q /\
  calculate_mean_reqs_per_sec iso_instant [mistimed_a] <> Ok 0%Q.
Proof.
  split; [reflexivity|]. split; [vm_compute; reflexivity|].
  split; [reflexivity|]. split; [vm_compute; reflexivity|].
  split; vm_compute; discriminate.
Qed.

Lemma flat_mean_short_list_witness :
  calculate_mean_reqs_per_sec iso_instant [start_a] = Ok 0%Q.
Proof.
  assert (Hrun : collect iso_instant [start_a] [] 0 = Ok ([midnight], 50))
    by (vm_compute; reflexivity).
  apply (flat_mean_short_list iso_instant [start_a]).
  - simpl. lia.
  - exact (sample_parses _ _ _ Hrun).
  - repeat constructor. apply mk_event_numeric.
Defined.




Lemma existing_group_frame_witness :
  exists g',
    ({[ key_a := group_a (Some midnight) None ]} : gmap string scan)
      !! key_a = Some g' /\
    template_id g' = VStr "cve-2021-1234" /\
    target g' = VStr "example.com" /\
    template_path g' = VStr "http/sample.yaml" /\
    max_requests g' = VInt 50 /\
    (progress_a !! "event_type" <> Some (VStr "scan_start") ->
     progress_a !! "event_type" <> Some (VStr "scan_end") ->
     g' = group_a (Some midnight) None /\
     ({[ key_a := group_a (Some midnight) None ]} : gmap string scan)
     = {[ key_a := group_a (Some midnight) None ]}).
Proof.
  apply (existing_group_frame iso_instant
           {[ key_a := group_a (Some midnight) None ]}
           {[ key_a := group_a (Some midnight) None ]}
           progress_a key_a (group_a (Some midnight) None)).
  - apply lookup_singleton_eq.
  - vm_compute. reflexivity.
  - vm_compute. reflexivity.
Defined.

(** ** The further properties on the sample logs *)

Lemma report_printed_only_on_success_witness :
  (main iso_instant (loads_table sample_lines)
        (one_file "events.jsonl" log_started) "public/events.jsonl"
        ["calculate_mean_reqs_per_sec.py"; "events.jsonl"]).2 = Ok ().
Proof.
  apply (report_printed_only_on_success iso_instant (loads_table sample_lines)
           (one_file "events.jsonl" log_started) "public/events.jsonl"
           ["calculate_mean_reqs_per_sec.py"; "events.jsonl"]
           PrintNoCompleted).
  - apply list_elem_of_In. vm_compute. do 5 right. left. reflexivity.
  - left. reflexivity.
Defined.

Lemma counts_are_ordered_witness :
  (length (completed_scans
             {[ key_a := group_a (Some midnight) (Some (midnight + 10000000)%Z) ]})
   <= size ({[ key_a := group_a (Some midnight) (Some (midnight + 10000000)%Z) ]}
            : gmap string scan))%nat /\
  (size ({[ key_a := group_a (Some midnight) (Some (midnight + 10000000)%Z) ]}
         : gmap string scan)
   <= length [start_a; end_a])%nat.
Proof.
  apply (counts_are_ordered iso_instant [start_a; end_a]).
  vm_compute. reflexivity.
Defined.

Lemma group_keys_are_event_keys_witness :
  is_Some (({[ key_a := group_a (Some midnight) (Some (midnight + 10000000)) ]}
            : gmap string scan) !! key_a)
  <-> exists e, e ∈ [start_a; end_a] /\ scan_key e = Ok key_a.
Proof.
  apply (group_keys_are_event_keys iso_instant [start_a; end_a]).
  vm_compute. reflexivity.
Defined.

Lemma first_event_supplies_fields_witness :
  exists g,
    ({[ key_a := group_a (Some midnight) (Some (midnight + 10000000)) ]}
     : gmap string scan) !! key_a = Some g /\
    start_a !! "template_id" = Some (template_id g) /\
    start_a !! "target" = Some (target g) /\
    start_a !! "template_path" = Some (template_path g) /\
    start_a !! "max_requests" = Some (max_requests g).
Proof.
  apply (first_event_supplies_fields iso_instant []
           [mk_event "2024-01-01T00:00:10Z" "scan_end" "cve-2021-1234"
                     "example.com" 999]
           start_a key_a).
  - vm_compute. reflexivity.
  - vm_compute. reflexivity.
  - intros e' He'. inversion He'.
Defined.

Lemma other_groups_untouched_witness :
  match group_loop iso_instant [start_a; end_a]
          {[ "detect_example.org" := group_a None None ]} with
  | Ok groups' =>
      groups' !! "detect_example.org"
      = ({[ "detect_example.org" := group_a None None ]} : gmap string scan)
          !! "detect_example.org"
  | Raise _ => False
  end.
Proof.
  destruct (group_loop iso_instant [start_a; end_a]
              {[ "detect_example.org" := group_a None None ]})
    as [groups'|x] eqn:H.
  - apply (other_groups_untouched iso_instant [start_a; end_a]
             "detect_example.org" _ _); [|exact H].
    intros e He.
    apply elem_of_cons in He as [->|He]; [vm_compute; discriminate|].
    apply list_elem_of_singleton in He as ->. vm_compute. discriminate.
  - vm_compute in H. discriminate.
Defined.

Lemma instants_come_from_events_witness :
  (forall t, start_time (group_a (Some midnight) (Some (midnight + 10000000)))
             = Some t ->
     exists e, e ∈ [start_a; end_a] /\ is_start e key_a /\
               parse_time iso_instant e = Ok t) /\
  (forall t, end_time (group_a (Some midnight) (Some (midnight + 10000000)))
             = Some t ->
     exists e, e ∈ [start_a; end_a] /\ is_end e key_a /\
               parse_time iso_instant e = Ok t).
Proof.
  apply (instants_come_from_events iso_instant [start_a; end_a]
           {[ key_a := group_a (Some midnight) (Some (midnight + 10000000)) ]}
           key_a).
  - vm_compute. reflexivity.
  - apply lookup_singleton_eq.
Defined.

Lemma normal_return_requires_fields_witness :
  is_Some (end_a !! "template_id") /\ is_Some (end_a !! "target") /\
  exists ty, end_a !! "event_type" = Some ty /\
    (ty = VStr "scan_start" \/ ty = VStr "scan_end" ->
     exists t, parse_time iso_instant end_a = Ok t).
Proof.
  apply (normal_return_requires_fields iso_instant (loads_table sample_lines)
           (one_file "events.jsonl" log_complete) "public/events.jsonl"
           ["calculate_mean_reqs_per_sec.py"; "events.jsonl"] log_complete
           [start_a; end_a]).
  - vm_compute. reflexivity.
  - vm_compute. reflexivity.
  - vm_compute. reflexivity.
  - apply list_elem_of_further, list_elem_of_here.
Defined.

Lemma repeated_event_changes_nothing_witness :
  group_step iso_instant {[ key_a := group_a (Some midnight) None ]} start_a
  = Ok {[ key_a := group_a (Some midnight) None ]}.
Proof.
  apply (repeated_event_changes_nothing iso_instant ∅).
  vm_compute. reflexivity.
Defined.

Lemma events_of_different_keys_commute_witness :
  exists mid',
    group_step iso_instant ∅ start_detect = Ok mid' /\
    group_step iso_instant mid' start_a
    = Ok (<[ "detect_dev_api.example.com" :=
               Scan (VStr "detect") (VStr "dev_api.example.com")
                    (VStr "http/sample.yaml") (VInt 10) (Some midnight) None ]>
            {[ key_a := group_a (Some midnight) None ]}).
Proof.
  apply (events_of_different_keys_commute iso_instant ∅
           {[ key_a := group_a (Some midnight) None ]} _ start_a start_detect).
  - vm_compute. reflexivity.
  - vm_compute. reflexivity.
  - vm_compute. discriminate.
Defined.


Lemma flat_mean_nonnegative_witness :
  (0 <= inject_Z 100 / total_seconds 10000000)%Q.
Proof.
  apply (flat_mean_nonnegative iso_instant [start_a; end_a]).
  - vm_compute. reflexivity.
  - vm_compute. discriminate.
Defined.

Lemma reported_span_and_mean_nonnegative_witness :
  match scan_statistics
          [group_a (Some midnight) (Some (midnight + 10000000))] with
  | Ok st =>
      (0 <= time_span st)%Q /\
      (0 <= total_requests st -> (0 <= mean_reqs_per_sec st)%Q)
  | Raise _ => False
  end.
Proof.
  destruct (scan_statistics
              [group_a (Some midnight) (Some (midnight + 10000000))])
    as [st|x] eqn:H.
  - exact (reported_span_and_mean_nonnegative _ _ H).
  - vm_compute in H. discriminate.
Defined.

Lemma zulu_suffix_is_utc_offset_witness :
  parse_time iso_instant start_a
  = parse_time iso_instant
      (mk_event "2024-01-01T00:00:00+00:00" "scan_start" "cve-2021-1234"
                "example.com" 50).
Proof.
  apply (zulu_suffix_is_utc_offset iso_instant _ _ "2024-01-01T00:00:00").
  - vm_compute. reflexivity.
  - vm_compute. reflexivity.
Defined.

Lemma time_without_zulu_parsed_as_is_witness :
  parse_time iso_instant
    (mk_event "2024-01-01T02:00:00+02:00" "scan_start" "cve-2021-1234"
              "example.com" 50)
  = match iso_instant "2024-01-01T02:00:00+02:00" with
    | Some t => Ok t
    | None => Raise ValueError
    end.
Proof.
  apply (time_without_zulu_parsed_as_is iso_instant).
  - vm_compute. reflexivity.
  - vm_compute. intuition discriminate.
Defined.

Lemma durations_within_span_witness :
  match scan_statistics
          [group_a (Some midnight) (Some (midnight + 10000000))] with
  | Ok st =>
      (shortest_scan st <= longest_scan st)%Q /\
      (longest_scan st <= time_span st)%Q
  | Raise _ => False
  end.
Proof.
  destruct (scan_statistics
              [group_a (Some midnight) (Some (midnight + 10000000))])
    as [st|x] eqn:H.
  - exact (durations_within_span _ _ H).
  - vm_compute in H. discriminate.
Defined.

End Samples.
